(** * USCIS case-status poller: a shallow embedding of [app.js]

    The development follows the latest revision of the scraper
    (the one with the [BLOCKED] flag, the [results] global and the
    "NEXIST" record).  JavaScript numbers are modelled as mathematical
    integers [Z] (exact for the safe-integer range the program works in),
    JavaScript strings as [string], plain objects used as dictionaries as
    [gmap string _], arrays as [list].

    External libraries are not part of the repository:
    - [moment] (date parsing and formatting), the clock and the remote
      service are the fields of the interface [External];
    - [request] (the HTTP transport) and [htmlparser]/[soupselect] are
      represented by what they hand to the program's callbacks: a
      [Response] per posted case number, and a [Dom] answering selector
      queries;
    - [async.map] and the lodash helpers are written out below. *)

From Stdlib Require Import ZArith Ascii.
From stdpp Require Import gmap strings list fin_maps.

Local Open Scope Z_scope.

(* ===================================================================== *)
(** * Part I: definitions                                                 *)
(* ===================================================================== *)

(** ** Numbers to strings *)

Definition digitChar (d : Z) : ascii := ascii_of_nat (48 + Z.to_nat d).

(** Decimal digits of a non-negative integer, least significant digit
    produced first and pushed in front of [acc]. *)
Fixpoint digitsLoop (fuel : nat) (n : Z) (acc : string) : string :=
  match fuel with
  | O => acc
  | S fuel' =>
      let acc' := String (digitChar (n mod 10)) acc in
      if n <? 10 then acc' else digitsLoop fuel' (n / 10) acc'
  end.

Definition digitsFuel (n : Z) : nat := S (Z.to_nat (Z.log2 n)).

(** The string an integer [num] is converted to when it is concatenated
    with a string: its decimal digits (what JavaScript prints for the
    safe integers, see below). *)
Definition numberToString (num : Z) : string :=
  if num <? 0
  then String "-"%char (digitsLoop (digitsFuel (- num)) (- num) EmptyString)
  else digitsLoop (digitsFuel num) num EmptyString.

(** ** The range on which numbers are exact

    A JavaScript number holds every integer up to
    [Number.MAX_SAFE_INTEGER] in absolute value exactly; on these [+],
    the comparisons, [parseInt] and the conversion to a string are the
    integer operations written here.  Beyond it sums are rounded and
    the conversion prints rounded digits or an exponent, which [Z] does
    not follow: the statements about numbers carry the range as a
    hypothesis. *)
Definition MAX_SAFE_INTEGER : Z := 2 ^ 53 - 1.

Definition isSafeInteger (n : Z) : Prop :=
  - MAX_SAFE_INTEGER ≤ n ≤ MAX_SAFE_INTEGER.

(** lodash's [MAX_ARRAY_LENGTH]: [_.times] collects no more results
    than this. *)
Definition MAX_ARRAY_LENGTH : Z := 4294967295.

(** ** [Const] *)

Module Const.
Definition maxFailures : Z := 100.
Definition caseNumLength : nat := 10.
Definition selectors_main : string := "div.rows".
Definition selectors_type : string := "h1".
Definition selectors_text : string := "p".
End Const.

(** ** [utils.pad]

    [while (s.length < size) s = "0" + s;]  The loop body runs at most
    [size] times, so [size] is enough fuel. *)
Fixpoint padLoop (fuel : nat) (s : string) (size : nat) : string :=
  match fuel with
  | O => s
  | S fuel' =>
      if (String.length s <? size)%nat
      then padLoop fuel' (String "0"%char s) size
      else s
  end.

Definition pad (num : Z) (size : nat) : string :=
  padLoop size (numberToString num) size.

(** ** lodash [_.times] and [utils.getParams]

    [_.times] as it behaves up to [MAX_ARRAY_LENGTH] results. *)

Definition times {A} (n : Z) (iteratee : Z → A) : list A :=
  iteratee <$> seqZ 0 n.

(** [parseInt] applied to a value that already is an integer. *)
Definition parseInt (n : Z) : Z := n.

Definition getParams (prefix : string) (start number : Z) : list string :=
  times number (λ index,
    prefix +:+ pad (parseInt start + index) Const.caseNumLength).

Global Arguments pad : simpl never.
Global Arguments getParams : simpl never.

(** The last [w] decimal digits, most significant first: the fixed-width
    rendering against which [pad] is compared. *)
Fixpoint fixedDigits (w : nat) (n : Z) : string :=
  match w with
  | O => EmptyString
  | S w' => String (digitChar ((n / 10 ^ Z.of_nat w') mod 10))
                   (fixedDigits w' (n mod 10 ^ Z.of_nat w'))
  end.

(** What the specification asks of the identifier generator for
    [(prefix, start, count)]: [count] identifiers, the [i]-th being the
    prefix followed by [start + i] rendered on exactly [caseNumLength]
    digits; strictly increasing (in string order), pairwise distinct and
    all of the same width. *)
Definition GeneratorSpec (prefix : string) (start count : Z) : Prop :=
  let ids := getParams prefix start count in
  length ids = Z.to_nat count
  ∧ (∀ i : nat, Z.of_nat i < count →
       ids !! i = Some (prefix +:+ fixedDigits Const.caseNumLength (start + Z.of_nat i)))
  ∧ (∀ (i j : nat) (a b : string),
       ids !! i = Some a → ids !! j = Some b → (i < j)%nat → String.ltb a b = true)
  ∧ NoDup ids
  ∧ (∀ a : string, a ∈ ids →
       String.length a = (String.length prefix + Const.caseNumLength)%nat).

(** ** JavaScript string helpers *)

(** [s.split(sep)] for a one-character separator: never empty. *)
Fixpoint split (sep : ascii) (s : string) : list string :=
  match s with
  | EmptyString => [EmptyString]
  | String c s' =>
      if Ascii.eqb c sep then EmptyString :: split sep s'
      else match split sep s' with
           | [] => [String c EmptyString]
           | w :: ws => String c w :: ws
           end
  end.

(** [arr.join(sep)] *)
Definition join (sep : string) (arr : list string) : string :=
  String.concat sep arr.

(** [s.slice(from, s.length)] *)
Definition sliceFrom (from : nat) (s : string) : string :=
  String.substring from (String.length s - from) s.

(** JavaScript truthiness of a value that is [null] or a string. *)
Definition truthy (v : option string) : bool :=
  match v with
  | None => false
  | Some s => negb (String.eqb s EmptyString)
  end.

(** ** moment.js values *)

Inductive Moment : Type :=
  | ValidMoment (seconds : Z)
  | InvalidMoment.

(** [m.unix()]; [None] stands for [NaN]. *)
Definition unix (m : Moment) : option Z :=
  match m with
  | ValidMoment seconds => Some seconds
  | InvalidMoment => None
  end.

(** ** The DOM handed over by htmlparser *)

#[warnings="-register-all"]
Inductive Node : Type :=
  mkNode {
    node_attribs : list (string * string);
    node_data : string;
    node_raw : string;
    node_children : option (list Node)
  }.

(** soupselect is external: a document is represented by the node lists
    its selectors return. *)
Definition Dom : Type := string → list Node.

Definition select (dom : Dom) (selector : string) : list Node := dom selector.

Inductive Page : Type :=
  | ParseFailure (err : string)
  | Document (dom : Dom).

(** What [request.post] hands to its callback. *)
Inductive Response : Type :=
  | TransportError (err : string)
  | Reply (body : Page).

(** ** The records of the program *)

(** [{date: <moment>, string: <label>}] *)
Record DateInfo : Type := {
  d_date : Moment;
  d_string : string
}.

(** [{raw: text, heading: title}], or [{}] *)
Record RawData : Type := {
  raw : option string;
  heading : option string
}.

Definition emptyData : RawData := {| raw := None; heading := None |}.

(** The result of [infoParser]; a [type] of [None] is [undefined]. *)
Record Info : Type := {
  info_data : RawData;
  info_type : option string;
  info_date : DateInfo
}.

(** One result record as handed to the callback of
    [retrieveCaseStatus]; an absent property is [None]. *)
Record CaseResult : Type := {
  caseNum : option string;
  type : option string;
  date : option DateInfo;
  data : option RawData
}.

(** The error objects [extractInfo] passes on: htmlparser's own error, or
    [{type: ..., msg: "info extraction failed"}]. *)
Inductive ExtractError : Type :=
  | ParserError (err : string)
  | InfoError (errType : string) (msg : string).

Definition err_type (e : ExtractError) : option string :=
  match e with
  | ParserError _ => None
  | InfoError t _ => Some t
  end.

(** One bucket of [group]; [b_unix] of [None] is [NaN]. *)
Record Bucket : Type := {
  items : list CaseResult;
  total : Z;
  b_type : string;
  b_date : string;
  b_unix : option Z
}.

(** What [group] builds: a bucket per date label and type. *)
Abbreviation Buckets := (gmap string (gmap string Bucket)).

(** The [_metadata] object that [writeStats] adds to every day. *)
Record Metadata : Type := {
  md_dateString : string;
  md_unix : option Z
}.

(** A property of a day object: the bucket of a type, or the day's
    [_metadata]. *)
Inductive Entry : Type :=
  | TypeBucket (b : Bucket)
  | DayMetadata (m : Metadata).

(** The [groups] object once [writeStats] has gone over it: what
    [processFinalResults] returns. *)
Abbreviation Groups := (gmap string (gmap string Entry)).

(** ** Console, globals and control *)

Inductive Log : Type :=
  | LogUnknownKey (key : string)
  | LogUnknownErrorType (label : list Node)
  | LogErrorParsingPage
  | LogRetrievalFailed (caseNum : string)
  | LogDoesNotExist (caseNum : string)
  | LogBlocked
  | LogProcessing (current : Z)
  | LogFinished (newCurrent : Z)
  | LogStarting
  | LogCompleted (count : nat)
  | LogStartingFinal
  | LogStatistics (groups : Groups)
  | LogCompletedFinal.

(** The two globals of the script, the console, and the case numbers
    submitted through [request.post], oldest first. *)
Record World : Type := {
  BLOCKED : bool;
  results : list CaseResult;
  console : list Log;
  posted : list string
}.

Definition initialWorld : World :=
  {| BLOCKED := false; results := []; console := []; posted := [] |}.

Inductive Exception : Type :=
  | TypeError (msg : string).

Inductive Outcome (A : Type) : Type :=
  | Returned (a : A) (w : World)
  | Thrown (e : Exception) (w : World)
  | OutOfFuel.
Arguments Returned {A} a w.
Arguments Thrown {A} e w.
Arguments OutOfFuel {A}.

Definition M (A : Type) : Type := World → Outcome A.

Global Instance M_ret : MRet M := λ A a w, Returned a w.

Global Instance M_bind : MBind M := λ A B k m w,
  match m w with
  | Returned a w' => k a w'
  | Thrown e w' => Thrown e w'
  | OutOfFuel => OutOfFuel
  end.

Definition throw {A} (e : Exception) : M A := λ w, Thrown e w.

Definition console_log (l : Log) : M unit :=
  λ w, Returned tt
         {| BLOCKED := BLOCKED w; results := results w;
            console := console w ++ [l]; posted := posted w |}.

Definition set_BLOCKED (b : bool) : M unit :=
  λ w, Returned tt
         {| BLOCKED := b; results := results w;
            console := console w; posted := posted w |}.

Definition get_BLOCKED : M bool := λ w, Returned (BLOCKED w) w.

Definition set_results (acc : list CaseResult) : M unit :=
  λ w, Returned tt
         {| BLOCKED := BLOCKED w; results := acc;
            console := console w; posted := posted w |}.

Definition request_post (caseNum : string) : M unit :=
  λ w, Returned tt
         {| BLOCKED := BLOCKED w; results := results w;
            console := console w; posted := posted w ++ [caseNum] |}.

(** ** What lies outside the script

    moment's parser and formatter, the clock read by [moment()], and the
    remote service's answer to each posted case number. *)
Class External : Type := {
  (** [moment(input, format)]: never raises, an unparsable input gives
      an invalid moment. *)
  momentParse : string → string → Moment;
  (** [m.format(format)] *)
  momentFormat : Moment → string → string;
  (** seconds since the epoch *)
  clock : Z;
  remote : string → Response
}.

(** ** [titleToType] *)

Definition titleToType : gmap string string :=
  list_to_map [
    ("Biometrics Appointment Was Scheduled", "BIO");
    ("Case Was Received and A Receipt Notice Was Emailed", "NOTICE");
    ("Decision Notice Mailed", "APPROVED");
    ("Request for Additional Evidence Was Mailed", "EVIDENCE_REQUEST");
    ("Card Was Delivered To Me By The Post Office", "CARD_ISSUED");
    ("Interview Was Scheduled", "INTERVIEW");
    ("Withdrawal Acknowledgement Notice Was Sent", "WITHDRAWN");
    ("Notice Explaining USCIS' Actions Was Mailed", "EXPLAIN");
    ("Card Is Being Produced", "CARD_ISSUED");
    ("Case Approved", "APPROVED");
    ("Case Was Approved", "APPROVED");
    ("Response To USCIS' Request For Evidence Was Received", "EVIDENCE_REQUEST");
    ("Card Was Produced", "CARD_ISSUED");
    ("Case Was Suspended Because My Fee Was Returned by My Bank", "SUSPENDED");
    ("Case Rejected Because I Sent An Incorrect Fee", "REJECTED")
  ].

(** ** lodash [_.has(object, path)] on a table of strings

    [_.has] takes a property path, not a key.  A path that is itself a
    property of the object is one segment; otherwise it is cut at its
    dots, and every segment has to be an own property of the value
    reached so far.  The values of the table are strings, whose own
    properties are [length] and the indices of their characters.
    (lodash also reads bracket segments such as [a[0]]; these are not
    written out here, and the general statements about [has] below are
    about paths without ".", "[" and "]".) *)

Inductive JsValue : Type :=
  | JsString (s : string)
  | JsNumber (n : Z).

Definition digitValue (c : ascii) : option Z := Z.of_nat <$> Ascii.is_nat c.

Fixpoint digitsValue (s : string) (acc : Z) : option Z :=
  match s with
  | EmptyString => Some acc
  | String c s' => d ← digitValue c; digitsValue s' (10 * acc + d)
  end.

(** A canonical array index: the decimal rendering of a natural number. *)
Definition parseIndex (key : string) : option nat :=
  match key with
  | EmptyString => None
  | _ => n ← digitsValue key 0;
         if String.eqb (numberToString n) key then Some (Z.to_nat n) else None
  end.

Definition ownProperty (v : JsValue) (key : string) : option JsValue :=
  match v with
  | JsString s =>
      if String.eqb key "length" then Some (JsNumber (Z.of_nat (String.length s)))
      else i ← parseIndex key;
           c ← String.get i s;
           Some (JsString (String c EmptyString))
  | JsNumber _ => None
  end.

Fixpoint hasPathFrom (v : JsValue) (path : list string) : bool :=
  match path with
  | [] => true
  | key :: rest =>
      match ownProperty v key with
      | Some v' => hasPathFrom v' rest
      | None => false
      end
  end.

Definition castPath (path : string) (object : gmap string string) : list string :=
  if bool_decide (is_Some (object !! path)) then [path] else split "." path.

Definition has (object : gmap string string) (path : string) : bool :=
  match castPath path object with
  | [] => false
  | key :: rest =>
      match object !! key with
      | Some v => hasPathFrom (JsString v) rest
      | None => false
      end
  end.

(** A heading that lodash reads as a single key. *)
Definition plainKey (s : string) : Prop :=
  ∀ c : ascii, c ∈ String.list_ascii_of_string s → c ≠ "."%char ∧ c ≠ "["%char ∧ c ≠ "]"%char.

(** The sum of a measure over the values of a dictionary. *)
Definition sumValues {V} (f : V → Z) (m : gmap string V) : Z :=
  foldr Z.add 0 (f <$> (map_to_list m).*2).

Section Script.
Context `{External}.

(** [moment()] *)
Definition moment_now : Moment := ValidMoment clock.

(** ** [utils.extract] *)
Definition extract (dom : Dom) (selector : string) : option string :=
  match select dom selector with
  | [n] =>
      match node_children n with
      | Some [] => None
      | Some (c :: _) => Some (node_data c)
      | None => None
      end
  | _ => None
  end.

(** ** [utils.getDate]

    [data] is [None] when the function is called without argument:
    [data.split] then raises and the [catch] branch takes the current
    time.  With a string, nothing in the [try] block raises. *)
Definition getDate (data : option string) : DateInfo :=
  let date :=
    match data with
    | Some text =>
        let seperated := split "," text in
        let dateString := join ", " (take 2 seperated) in
        let dateString := sliceFrom 3 dateString in
        momentParse dateString "MMM DD  YYYY"
    | None => moment_now
    end in
  {| d_date := date; d_string := momentFormat date "dddd, MMMM Do YYYY" |}.

(** ** [utils.infoParser] *)
Definition getType (key : string) : M (option string) :=
  if has titleToType key then mret (titleToType !! key)
  else console_log (LogUnknownKey key);; mret (Some "UNKNOWN").

Definition infoParser (text title : string) : M Info :=
  ty ← getType title;
  mret {| info_data := {| raw := Some text; heading := Some title |};
          info_type := ty;
          info_date := getDate (Some text) |}.

(** ** [utils.getErrorType] *)

(** [_.get(label, "0.attribs.for", null)] *)
Definition labelFor (label : list Node) : option string :=
  match label with
  | [] => None
  | n :: _ => (list_to_map (node_attribs n) : gmap string string) !! "for"
  end.

(** [_.get(error, "0.children.0.raw")] *)
Definition headingRaw (error : list Node) : option string :=
  match error with
  | [] => None
  | n :: _ =>
      match node_children n with
      | Some (c :: _) => Some (node_raw c)
      | _ => None
      end
  end.

Definition getErrorType (dom : Dom) : M string :=
  let label := select dom "label" in
  let labelFor := labelFor label in
  if bool_decide (labelFor = Some "accessviolation") then mret "BLOCKED"
  else
    let unknown : M string :=
      console_log (LogUnknownErrorType label);; mret "UNKNOWN" in
    if bool_decide (labelFor = Some "receipt_number") then
      let error := select dom "#formErrorMessages h4" in
      match headingRaw error with
      | None => throw (TypeError "Cannot read property 'split' of undefined")
      | Some raw =>
          let msg := split " " raw in
          if bool_decide (msg !! 0%nat = Some "Validation") then mret "NOT_FOUND"
          else unknown
      end
    else unknown.

(** ** [utils.extractInfo] *)
Definition extractInfo {R} (rawHTML : Page)
    (callback : option ExtractError → option Info → M R) : M R :=
  match rawHTML with
  | ParseFailure err =>
      console_log LogErrorParsingPage;;
      callback (Some (ParserError err)) None
  | Document dom =>
      let titleSelector := join " " [Const.selectors_main; Const.selectors_type] in
      let textSelector := join " " [Const.selectors_main; Const.selectors_text] in
      let title := extract dom titleSelector in
      let text := extract dom textSelector in
      let salvage : M R :=
        ty ← getErrorType dom;
        callback (Some (InfoError ty "info extraction failed")) None in
      match title, text with
      | Some title', Some text' =>
          if negb (truthy title) || negb (truthy text) then salvage
          else info ← infoParser text' title'; callback None (Some info)
      | _, _ => salvage
      end
  end.

(** ** [utils.retrieveCaseStatus] *)

(** [_.extend({}, defaultReturn, res, {caseNum: caseNum})] *)
Definition extend (defaultReturn : CaseResult) (res : option Info)
    (caseNum' : string) : CaseResult :=
  match res with
  | Some info =>
      {| caseNum := Some caseNum';
         type := info_type info;
         date := Some (info_date info);
         data := Some (info_data info) |}
  | None =>
      {| caseNum := Some caseNum';
         type := type defaultReturn;
         date := date defaultReturn;
         data := data defaultReturn |}
  end.

Definition retrieveCaseStatus {R} (caseNum' : string)
    (callback : option ExtractError → CaseResult → M R) : M R :=
  request_post caseNum';;
  let defaultReturn :=
    {| caseNum := Some caseNum';
       type := Some "FAILED";
       date := Some (getDate None);
       data := Some emptyData |} in
  match remote caseNum' with
  | TransportError err =>
      console_log (LogRetrievalFailed caseNum');;
      callback None defaultReturn
  | Reply body =>
      extractInfo body (λ err res,
        match err with
        | Some e =>
            if bool_decide (err_type e = Some "BLOCKED") then
              set_BLOCKED true;;
              callback None defaultReturn
            else if bool_decide (err_type e = Some "NOT_FOUND") then
              console_log (LogDoesNotExist caseNum');;
              callback None
                {| caseNum := None; type := Some "NEXIST";
                   date := None; data := None |}
            else callback None defaultReturn
        | None => callback None (extend defaultReturn res caseNum')
        end)
  end.

(** ** [utils.group]

    The accumulator is the nested object [acc[dateString][type]]: the
    path [dateString + "." + type] has these two segments (the labels
    moment formats and the status codes contain no "."). *)

(** [_.get(acc, path)] *)
Definition getBucket (acc : Buckets) (dateString type' : string) : option Bucket :=
  acc !! dateString ≫= (.!! type').

(** [_.set(acc, path, value)] *)
Definition setBucket (acc : Buckets) (dateString type' : string)
    (value : Bucket) : Buckets :=
  <[dateString := <[type' := value]> (default ∅ (acc !! dateString))]> acc.

Definition itemDate (item : CaseResult) : Moment :=
  default moment_now (d_date <$> date item).

Definition itemDateString (item : CaseResult) : string :=
  default (momentFormat moment_now "dddd, MMMM Do YYYY") (d_string <$> date item).

Definition itemType (item : CaseResult) : string :=
  default "UNKNOWN" (type item).

Definition groupStep (acc : Buckets) (item : CaseResult) : Buckets :=
  let date := itemDate item in
  let dateString := itemDateString item in
  let type' := itemType item in
  let value :=
    default {| items := []; total := 0; b_type := type';
               b_date := dateString; b_unix := unix date |}
            (getBucket acc dateString type') in
  let value :=
    {| items := items value ++ [item]; total := total value + 1;
       b_type := b_type value; b_date := b_date value;
       b_unix := b_unix value |} in
  setBucket acc dateString type' value.

Definition group (res : list CaseResult) : Buckets :=
  foldl groupStep ∅ res.

(** [_.values(groups)] flattened over [_.values] of each day. *)
Definition buckets (groups : Buckets) : list Bucket :=
  (map_to_list groups).*2 ≫= (λ day, (map_to_list day).*2).

Definition sumTotals (groups : Buckets) : Z :=
  foldr Z.add 0 (total <$> buckets groups).

(** The input records that belong to the bucket [(dateString, type)]. *)
Definition members (res : list CaseResult) (dateString type' : string)
    : list CaseResult :=
  filter (λ item, itemDateString item = dateString ∧ itemType item = type') res.

(** ** [utils.writeStats]

    [_.map(groups, ...)] extends every day object in place with a
    [_metadata] entry, [{dateString: key, unix: moment(key, ...).unix()}]
    ([_.extend] overwrites a property of that name).  The extended
    object is returned here, since [processFinalResults] goes on with
    it.  The console summary printed from it is one console event
    carrying the object. *)
Definition extendMetadata (value : gmap string Bucket) (key : string)
    : gmap string Entry :=
  <["_metadata" :=
      DayMetadata
        {| md_dateString := key;
           md_unix := unix (momentParse key "dddd, MMMM Do YYYY") |}]>
    (TypeBucket <$> value).

Definition withMetadata (groups : Buckets) : Groups :=
  map_imap (λ key value, Some (extendMetadata value key)) groups.

Definition writeStats (groups : Buckets) : M Groups :=
  let groups := withMetadata groups in
  console_log (LogStatistics groups);;
  mret groups.

(** ** [utils.processFinalResults]

    The CSV exports format the values of the records and of the buckets
    and are left out; they change neither. *)
Definition processFinalResults (res : list CaseResult) : M Groups :=
  if bool_decide (0 < length res)%nat then
    groups ← writeStats (group res);
    mret groups
  else mret ∅.

(** ** [async.map]

    The iteratee is started on every element and the final callback
    runs once all of them have called back, with the results in the
    order of the collection.  The elements are processed here one
    after the other, the answers being taken in the order of the
    requests: the only state they share is the [BLOCKED] flag, which is
    only ever set, and the console.  A lookup that raises ends the
    batch there; the requests of the elements after it, which
    [async.map] has issued by then, are not recorded in [posted]. *)
Fixpoint mapAll {A B E}
    (iteratee : ∀ R, A → (option E → B → M R) → M R)
    (coll : list A) : M (option E * list B) :=
  match coll with
  | [] => mret (None, [])
  | a :: rest =>
      r ← iteratee _ a (λ err b, mret (err, b));
      match r.1 with
      | Some e => mret (Some e, [r.2])
      | None =>
          rs ← mapAll iteratee rest;
          mret (rs.1, r.2 :: rs.2)
      end
  end.

Definition async_map {A B E R} (coll : list A)
    (iteratee : ∀ R, A → (option E → B → M R) → M R)
    (callback : option E → list B → M R) : M R :=
  r ← mapAll iteratee coll;
  callback r.1 r.2.

(** ** [utils.recursiveHelper] *)

Record Data : Type := {
  prefix : string;
  end_ : Z;
  intervalSize : Z
}.

Fixpoint recursiveHelper {R} (fuel : nat) (data : Data) (current : Z)
    (acc : list CaseResult)
    (callback : option ExtractError → list CaseResult → M R) : M R :=
  set_results acc;;
  blocked ← get_BLOCKED;
  if (current >=? end_ data) || blocked then
    (if blocked then console_log LogBlocked else mret ());;
    callback None acc
  else
    match fuel with
    | O => λ _, OutOfFuel
    | S fuel' =>
        let params := getParams (prefix data) current (intervalSize data) in
        console_log (LogProcessing current);;
        async_map params (λ R, retrieveCaseStatus (R := R)) (λ err res,
          let newCurrent := current + intervalSize data in
          console_log (LogFinished newCurrent);;
          let fn := λ acc', recursiveHelper fuel' data newCurrent acc' callback in
          match err with
          | Some _ => fn acc
          | None => fn (acc ++ res)
          end)
    end.

(** ** [run] *)

Record Options : Type := {
  o_total : Z;
  o_prefix : string;
  o_start : Z;
  o_limit : Z
}.

(** The callback [run] passes to [recursiveHelper]. *)
Definition finalProcessing {R} (callback : option ExtractError → Groups → M R)
    : option ExtractError → list CaseResult → M R :=
  λ err res,
    console_log (LogCompleted (length res));;
    console_log LogStartingFinal;;
    hash ← processFinalResults res;
    console_log LogCompletedFinal;;
    callback err hash.

Definition run {R} (fuel : nat) (options : Options)
    (callback : option ExtractError → Groups → M R) : M R :=
  console_log LogStarting;;
  let start := parseInt (o_start options) in
  let data :=
    {| prefix := o_prefix options;
       intervalSize := parseInt (o_limit options);
       end_ := start + parseInt (o_total options) |} in
  recursiveHelper fuel data start [] (finalProcessing callback).

(** ** The scheduler as a step relation

    A configuration is what [recursiveHelper] is entered with; one step
    is one batch: the guard lets it start, every lookup of the batch
    calls back, and the helper is re-entered. *)
Record Sched : Type := {
  current : Z;
  acc : list CaseResult;
  world : World
}.

Definition halted (data : Data) (s : Sched) : bool :=
  (current s >=? end_ data) || BLOCKED (world s).

Definition batchParams (data : Data) (s : Sched) : list string :=
  getParams (prefix data) (current s) (intervalSize data).

Definition batch (data : Data) (s : Sched) : M (Z * list CaseResult) :=
  set_results (acc s);;
  console_log (LogProcessing (current s));;
  r ← mapAll (λ R, retrieveCaseStatus (R := R)) (batchParams data s);
  console_log (LogFinished (current s + intervalSize data));;
  mret (current s + intervalSize data,
        match r.1 with Some _ => acc s | None => acc s ++ r.2 end).

(** The world after the guard of [recursiveHelper] has refused to
    start a batch: [results] holds the accumulator and a set flag has
    been announced. *)
Definition stopped (s : Sched) : World :=
  {| BLOCKED := BLOCKED (world s);
     results := acc s;
     console := console (world s)
                ++ (if BLOCKED (world s) then [LogBlocked] else []);
     posted := posted (world s) |}.

Inductive step (data : Data) : Sched → Sched → Prop :=
  | step_batch (s : Sched) (current' : Z) (acc' : list CaseResult) (w' : World) :
      halted data s = false →
      batch data s (world s) = Returned (current', acc') w' →
      step data s {| current := current'; acc := acc'; world := w' |}.

End Script.

(** ** Reading outcomes *)

(** A property of the world an outcome ends in. *)
Definition endsIn {A} (P : World → Prop) (o : Outcome A) : Prop :=
  match o with
  | Returned _ w' => P w'
  | Thrown _ w' => P w'
  | OutOfFuel => True
  end.

(** The computation ran to an end: it returned or raised. *)
Definition terminates {A} (o : Outcome A) : Prop :=
  match o with
  | OutOfFuel => False
  | _ => True
  end.

(** Only the console differs. *)
Definition sameGlobals (w w' : World) : Prop :=
  BLOCKED w' = BLOCKED w ∧ results w' = results w ∧ posted w' = posted w.

(** What one lookup of [caseNum'] may do to the globals: the case number
    is posted, the flag is at most set, [results] is untouched. *)
Definition lookedUp (caseNum' : string) (w w' : World) : Prop :=
  posted w' = posted w ++ [caseNum']
  ∧ results w' = results w
  ∧ (BLOCKED w = true → BLOCKED w' = true).

(** ** The specification's view of one lookup *)

Section Lookup.
Context `{External}.

(** The extraction capability run on its own: what [extractInfo]
    hands to its callback. *)
Definition extraction (body : Page) : M (option ExtractError * option Info) :=
  extractInfo body (λ err res, mret (err, res)).

(** The outcomes of transport and extraction that a lookup of
    [caseNum'] started in world [w] can meet: a transport error, or
    whatever the extraction hands to its callback for the body received
    (an extraction failure of any classified kind, a parser error, or a
    classified document). *)
Inductive CapabilityOutcome (caseNum' : string) (w : World) : Prop :=
  | transport_failed (err : string) :
      remote caseNum' = TransportError err →
      CapabilityOutcome caseNum' w
  | extraction_outcome (body : Page) (err : option ExtractError)
      (res : option Info) (w' : World) :
      remote caseNum' = Reply body →
      (request_post caseNum';; extraction body) w = Returned (err, res) w' →
      CapabilityOutcome caseNum' w.

(** The record of a failed transport: status "FAILED", the current
    time, no raw fields. *)
Definition failedRecord (caseNum' : string) : CaseResult :=
  {| caseNum := Some caseNum';
     type := Some "FAILED";
     date := Some {| d_date := ValidMoment clock;
                     d_string := momentFormat (ValidMoment clock) "dddd, MMMM Do YYYY" |};
     data := Some {| raw := None; heading := None |} |}.

(** The extraction of heading and text fails on the document. *)
Definition extractionFails (dom : Dom) : Prop :=
  negb (truthy (extract dom (join " " [Const.selectors_main; Const.selectors_type])))
  || negb (truthy (extract dom (join " " [Const.selectors_main; Const.selectors_text])))
  = true.

(** An extraction failure carrying the access-violation marker. *)
Definition accessViolation (dom : Dom) : Prop :=
  extractionFails dom ∧ labelFor (select dom "label") = Some "accessviolation".

(** A failure page on which [getErrorType] reads a heading that is
    not there: the extraction fails, the first label is the
    receipt-number label and there is no error heading. *)
Definition missingHeading (dom : Dom) : Prop :=
  extractionFails dom
  ∧ labelFor (select dom "label") = Some "receipt_number"
  ∧ headingRaw (select dom "#formErrorMessages h4") = None.

(** One lookup in direct style. *)
Definition lookup (caseNum' : string) : M (option ExtractError * CaseResult) :=
  retrieveCaseStatus caseNum' (λ err res, mret (err, res)).
End Lookup.

(** The comma-delimited date token of a body text, as [getDate] cuts it
    out before handing it to moment. *)
Definition dateToken (text : string) : string :=
  sliceFrom 3 (join ", " (take 2 (split "," text))).

(** ** Sample documents and a sample environment

    Used to run the script on concrete inputs. *)

Definition textNode (s : string) : Node :=
  {| node_attribs := []; node_data := s; node_raw := s; node_children := None |}.

Definition element (attribs : list (string * string)) (children : list Node) : Node :=
  {| node_attribs := attribs; node_data := EmptyString; node_raw := EmptyString;
     node_children := Some children |}.

(** A status page: one heading and one paragraph inside [div.rows]. *)
Definition statusPage (title text : string) : Dom :=
  λ selector,
    if String.eqb selector "div.rows h1" then [element [] [textNode title]]
    else if String.eqb selector "div.rows p" then [element [] [textNode text]]
    else [].

(** An error page: a label and, possibly, an error heading. *)
Definition errorPage (for_ : string) (h4 : option string) : Dom :=
  λ selector,
    if String.eqb selector "label" then [element [("for", for_)] []]
    else if String.eqb selector "#formErrorMessages h4" then
      match h4 with
      | Some msg => [element [] [textNode msg]]
      | None => []
      end
    else [].

(** A calendar that knows one date, a formatter that prints day numbers,
    the clock at 2016-08-28, and a remote service with one case of each
    kind. *)
Definition sampleParse (input format : string) : Moment :=
  if String.eqb input "August 24,  2016" then ValidMoment 1471996800
  else InvalidMoment.

Definition sampleFormat (m : Moment) (format : string) : string :=
  match m with
  | ValidMoment seconds => "day " +:+ numberToString (seconds / 86400)
  | InvalidMoment => "Invalid date"
  end.

Definition sampleRemote (caseNum' : string) : Response :=
  if String.eqb caseNum' "IOE0900677923" then
    Reply (Document (statusPage "Case Was Approved"
      "On August 24, 2016, we approved your Form I-765."))
  else if String.eqb caseNum' "IOE0900677924" then
    Reply (Document (errorPage "receipt_number"
      (Some "Validation Error(s) You must correct the following error(s) before proceeding:")))
  else if String.eqb caseNum' "IOE0900677925" then
    Reply (Document (statusPage "Something New" "Your case is pending."))
  else if String.eqb caseNum' "IOE0900677940" then
    Reply (Document (errorPage "accessviolation" None))
  else if String.eqb caseNum' "IOE0900677950" then
    Reply (Document (errorPage "receipt_number" None))
  else TransportError "ECONNRESET".

Definition sampleExternal : External :=
  {| momentParse := sampleParse;
     momentFormat := sampleFormat;
     clock := 1472342400;
     remote := sampleRemote |}.

(** A scheduler configuration of the sample environment: batches of five
    up to case 900677949, about to poll the batch that starts with the
    access-violation page. *)
Definition sampleData : Data :=
  {| prefix := "IOE"; end_ := 900677950; intervalSize := 5 |}.

Definition sampleSched : Sched :=
  {| current := 900677940; acc := []; world := initialWorld |}.

(** Batches of eleven: the batch that starts with the access-violation
    page then ends with the page that has no error heading. *)
Definition sampleDataWide : Data :=
  {| prefix := "IOE"; end_ := 900677960; intervalSize := 11 |}.

(** The configuration after that batch has been run. *)
Definition sampleSchedNext : Sched :=
  Eval vm_compute in
    match batch (H := sampleExternal) sampleData sampleSched (world sampleSched) with
    | Returned r w' => {| current := r.1; acc := r.2; world := w' |}
    | _ => sampleSched
    end.

(** A run of the sample environment from the initial world, with a
    callback that returns what it is given. *)
Definition sampleRun (fuel : nat) (options : Options)
    : Outcome (option ExtractError * Groups) :=
  run (H := sampleExternal) fuel options (λ err hash, mret (err, hash)) initialWorld.

Definition finalWorld {A} (o : Outcome A) : World :=
  match o with
  | Returned _ w' => w'
  | Thrown _ w' => w'
  | OutOfFuel => initialWorld
  end.

Definition finalHash (o : Outcome (option ExtractError * Groups)) : Groups :=
  match o with
  | Returned r _ => r.2
  | _ => ∅
  end.

(** ** The earlier revision, [USCISCaseStatus/app.js]

    Same [pad], [extract], [getDate] and [_.extend]; a shorter table, no
    [getErrorType], no [BLOCKED] flag: every extraction error is answered
    with the default record. *)
Module AppJs.

Definition titleToType : gmap string string :=
  list_to_map [
    ("Biometrics Appointment Was Scheduled", "BIO");
    ("Case Was Received and A Receipt Notice Was Emailed", "NOTICE");
    ("Decision Notice Mailed", "APPROVED");
    ("Request for Additional Evidence Was Mailed", "EVIDENCE_REQUEST");
    ("Card Was Delivered To Me By The Post Office", "CARD_DELIVERED");
    ("Interview Was Scheduled", "INTERVIEW");
    ("Withdrawal Acknowledgement Notice Was Sent", "WITHDRAWN")
  ].

(** The error objects of this revision: htmlparser's own error, or
    [{msg: "info extraction failed"}]. *)
Inductive ExtractError : Type :=
  | ParserError (err : string)
  | InfoError (msg : string).

Section Script.
Context `{External}.

Definition getType (key : string) : M (option string) :=
  if has titleToType key then mret (titleToType !! key)
  else console_log (LogUnknownKey key);; mret (Some "UNKNOWN").

Definition infoParser (text title : string) : M Info :=
  ty ← getType title;
  mret {| info_data := {| raw := Some text; heading := Some title |};
          info_type := ty;
          info_date := getDate (Some text) |}.

Definition extractInfo {R} (rawHTML : Page)
    (callback : option ExtractError → option Info → M R) : M R :=
  match rawHTML with
  | ParseFailure err =>
      console_log LogErrorParsingPage;;
      callback (Some (ParserError err)) None
  | Document dom =>
      let titleSelector := join " " [Const.selectors_main; Const.selectors_type] in
      let textSelector := join " " [Const.selectors_main; Const.selectors_text] in
      let title := extract dom titleSelector in
      let text := extract dom textSelector in
      let failed : M R :=
        callback (Some (InfoError "info extraction failed")) None in
      match title, text with
      | Some title', Some text' =>
          if negb (truthy title) || negb (truthy text) then failed
          else info ← infoParser text' title'; callback None (Some info)
      | _, _ => failed
      end
  end.

Definition retrieveCaseStatus {R} (caseNum' : string)
    (callback : option ExtractError → CaseResult → M R) : M R :=
  request_post caseNum';;
  let defaultReturn :=
    {| caseNum := Some caseNum';
       type := Some "FAILED";
       date := Some (getDate None);
       data := Some emptyData |} in
  match remote caseNum' with
  | TransportError err =>
      console_log (LogRetrievalFailed caseNum');;
      callback None defaultReturn
  | Reply body =>
      extractInfo body (λ err res,
        match err with
        | Some _ => callback None defaultReturn
        | None => callback None (extend defaultReturn res caseNum')
        end)
  end.

(** The identifiers [run] builds with [_.times(options.total, ...)]. *)
Definition params (options : Options) : list string :=
  times (o_total options) (λ index,
    o_prefix options
    +:+ pad (parseInt (o_start options) + index) Const.caseNumLength).

(** [async.mapLimit]: the iteratee is started on the elements in order,
    no more than [limit] of them at a time, and the final callback gets
    the results in the order of the collection.  With a limit below one
    nothing is started and the final callback gets the empty array. *)
Definition mapLimit {A B E R} (coll : list A) (limit : Z)
    (iteratee : ∀ R, A → (option E → B → M R) → M R)
    (callback : option E → list B → M R) : M R :=
  if limit <=? 0 then callback None []
  else
    r ← mapAll iteratee coll;
    callback r.1 r.2.

End Script.
End AppJs.

(** What the callback [retrieveCaseStatus] gives to [extractInfo] hands
    on, for a lookup in direct style. *)
Definition retrieveCaseStatus_answer `{External} (caseNum' : string)
    (err : option ExtractError) (res : option Info)
    : M (option ExtractError * CaseResult) :=
  let defaultReturn :=
    {| caseNum := Some caseNum';
       type := Some "FAILED";
       date := Some (getDate None);
       data := Some emptyData |} in
  match err with
  | Some e =>
      if bool_decide (err_type e = Some "BLOCKED") then
        set_BLOCKED true;;
        mret (None, defaultReturn)
      else if bool_decide (err_type e = Some "NOT_FOUND") then
        console_log (LogDoesNotExist caseNum');;
        mret (None, {| caseNum := None; type := Some "NEXIST";
                       date := None; data := None |})
      else mret (None, defaultReturn)
  | None => mret (None, extend defaultReturn res caseNum')
  end.

(** The record of a case that does not exist. *)
Definition nexistRecord : CaseResult :=
  {| caseNum := None; type := Some "NEXIST"; date := None; data := None |}.

(* ===================================================================== *)
(** * Part II: theorems                                                   *)
(* ===================================================================== *)

(** ** Strings *)

Lemma string_app_cons (x : ascii) (a b : string) :
  String x a +:+ b = String x (a +:+ b).
Proof. reflexivity. Qed.

Lemma string_app_nil_l (a : string) : EmptyString +:+ a = a.
Proof. reflexivity. Qed.

Lemma string_app_assoc (a b c : string) : (a +:+ b) +:+ c = a +:+ (b +:+ c).
Proof.
  induction a as [|x a IH]; [done|].
  by rewrite !string_app_cons, IH.
Qed.

Lemma string_app_nil_r (a : string) : a +:+ EmptyString = a.
Proof.
  induction a as [|x a IH]; [done|].
  by rewrite string_app_cons, IH.
Qed.

Lemma string_app_length (a b : string) :
  String.length (a +:+ b) = (String.length a + String.length b)%nat.
Proof.
  induction a as [|x a IH]; [done|].
  rewrite string_app_cons. simpl. by rewrite IH.
Qed.

Lemma ascii_compare_refl (c : ascii) : Ascii.compare c c = Eq.
Proof. unfold Ascii.compare. apply N.compare_refl. Qed.

Lemma string_compare_app (p x y : string) :
  String.compare (p +:+ x) (p +:+ y) = String.compare x y.
Proof.
  induction p as [|c p IH]; [done|].
  rewrite !string_app_cons. simpl.
  by rewrite ascii_compare_refl.
Qed.

(** ** Decimal digits *)

Lemma digitChar_code (d : Z) :
  0 ≤ d < 10 → N_of_ascii (digitChar d) = Z.to_N (48 + d).
Proof.
  intros Hd. unfold digitChar, ascii_of_nat.
  rewrite N_ascii_embedding; lia.
Qed.

Lemma digitChar_compare (a b : Z) :
  0 ≤ a < 10 → 0 ≤ b < 10 →
  Ascii.compare (digitChar a) (digitChar b) = (a ?= b).
Proof.
  intros Ha Hb. unfold Ascii.compare.
  rewrite !digitChar_code by done.
  rewrite Z2N.inj_compare by lia.
  destruct (Z.compare_spec a b), (Z.compare_spec (48 + a) (48 + b)); lia || done.
Qed.

Lemma fixedDigits_length (w : nat) (n : Z) : String.length (fixedDigits w n) = w.
Proof. revert n; induction w as [|w IH]; intros n; simpl; [done | by rewrite IH]. Qed.

Lemma pow10_pos (k : nat) : 0 < 10 ^ Z.of_nat k.
Proof. apply Z.pow_pos_nonneg; lia. Qed.

Lemma pow10_S (k : nat) : 10 ^ Z.of_nat (S k) = 10 * 10 ^ Z.of_nat k.
Proof. rewrite Nat2Z.inj_succ, Z.pow_succ_r; lia. Qed.

(** The last digit can be split off: the fixed-width rendering is the
    usual "divide by ten" one. *)
Lemma fixedDigits_snoc (w : nat) (n : Z) :
  0 ≤ n →
  fixedDigits (S w) n
  = fixedDigits w (n / 10) +:+ String (digitChar (n mod 10)) EmptyString.
Proof.
  revert n; induction w as [|w IH]; intros n Hn.
  - simpl. rewrite Z.div_1_r. done.
  - change (fixedDigits (S (S w)) n)
      with (String (digitChar ((n / 10 ^ Z.of_nat (S w)) mod 10))
                   (fixedDigits (S w) (n mod 10 ^ Z.of_nat (S w)))).
    pose proof (pow10_pos w) as Hp.
    rewrite IH by (apply Z.mod_pos_bound; rewrite pow10_S; lia).
    change (fixedDigits (S w) (n / 10))
      with (String (digitChar ((n / 10 / 10 ^ Z.of_nat w) mod 10))
                   (fixedDigits w ((n / 10) mod 10 ^ Z.of_nat w))).
    rewrite string_app_cons.
    rewrite pow10_S.
    rewrite Z.div_div by lia.
    replace (n mod (10 * 10 ^ Z.of_nat w) / 10)
      with ((n / 10) mod 10 ^ Z.of_nat w)
      by (rewrite (Z.rem_mul_r n 10 (10 ^ Z.of_nat w)) by lia;
          rewrite (Z.mul_comm 10 (_ mod _)), Z.div_add by lia;
          rewrite (Z.div_small (n mod 10) 10) by (apply Z.mod_pos_bound; lia);
          lia).
    replace (n mod (10 * 10 ^ Z.of_nat w) mod 10) with (n mod 10)
      by (rewrite (Z.rem_mul_r n 10 (10 ^ Z.of_nat w)) by lia;
          rewrite (Z.mul_comm 10 (_ mod _)), Z.mod_add by lia;
          by rewrite Z.mod_mod by lia).
    done.
Qed.

Lemma padLoop_spec (fuel : nat) (s : string) (size : nat) :
  (size - String.length s ≤ fuel)%nat →
  padLoop fuel s size = fixedDigits (size - String.length s) 0 +:+ s.
Proof.
  revert s; induction fuel as [|fuel IH]; intros s Hf; simpl.
  - replace (size - String.length s)%nat with O by lia. done.
  - destruct (Nat.ltb_spec (String.length s) size) as [Hlt|Hge].
    + rewrite IH by (simpl; lia). simpl String.length.
      replace (size - String.length s)%nat
        with (S (size - S (String.length s))) by lia.
      rewrite fixedDigits_snoc by lia.
      rewrite string_app_assoc. done.
    + replace (size - String.length s)%nat with O by lia. done.
Qed.

(** The guard of the [while] loop, not the fuel, ends [padLoop]. *)
Lemma padLoop_guard (s : string) (size : nat) :
  (size ≤ String.length (padLoop size s size))%nat.
Proof.
  rewrite padLoop_spec by lia.
  rewrite string_app_length, fixedDigits_length. lia.
Qed.

Lemma digitsLoop_spec (fuel : nat) :
  ∀ (n : Z) (acc : string),
    (1 ≤ fuel)%nat → 0 ≤ n < 10 ^ Z.of_nat fuel →
    ∃ s, digitsLoop fuel n acc = s +:+ acc
         ∧ (1 ≤ String.length s)%nat
         ∧ ∀ k : nat, (1 ≤ k)%nat → n < 10 ^ Z.of_nat k →
             (String.length s ≤ k)%nat
             ∧ fixedDigits (k - String.length s) 0 +:+ s = fixedDigits k n.
Proof.
  induction fuel as [|fuel IH]; intros n acc Hfuel Hn; [lia|].
  simpl digitsLoop.
  - destruct (Z.ltb_spec n 10) as [Hlt|Hge].
    + exists (String (digitChar (n mod 10)) EmptyString).
      split; [done|]. split; [simpl; lia|].
      intros k Hk Hnk. split; [simpl; lia|].
      simpl String.length.
      replace k with (S (k - 1)) at 2 by lia.
      rewrite fixedDigits_snoc by lia.
      by rewrite Z.div_small by lia.
    + assert (0 ≤ n / 10 < 10 ^ Z.of_nat fuel) as Hdiv.
      { rewrite pow10_S in Hn. split; [apply Z.div_pos; lia|].
        apply Z.div_lt_upper_bound; lia. }
      assert (1 ≤ fuel)%nat as Hfuel'.
      { destruct fuel; [|lia]. change (10 ^ Z.of_nat 1) with 10 in Hn. lia. }
      destruct (IH (n / 10) (String (digitChar (n mod 10)) acc) Hfuel' Hdiv)
        as (s' & Hs' & Hlen & Hfix).
      exists (s' +:+ String (digitChar (n mod 10)) EmptyString).
      split; [by rewrite Hs', string_app_assoc|].
      split; [rewrite string_app_length; simpl; lia|].
      intros k Hk Hnk.
      assert (2 ≤ k)%nat as Hk2.
      { destruct k as [|[|k]]; [lia| |lia].
        change (10 ^ Z.of_nat 1) with 10 in Hnk. lia. }
      destruct (Hfix (k - 1)%nat) as [Hle Heq]; [lia | |].
      { replace k with (S (k - 1)) in Hnk by lia. rewrite pow10_S in Hnk.
        apply Z.div_lt_upper_bound; lia. }
      rewrite string_app_length. simpl String.length.
      split; [lia|].
      replace (k - (String.length s' + 1))%nat
        with (k - 1 - String.length s')%nat by lia.
      rewrite <- string_app_assoc, Heq.
      replace k with (S (k - 1)) at 2 by lia.
      by rewrite fixedDigits_snoc by lia.
Qed.

Lemma digitsFuel_enough (n : Z) : 0 ≤ n → n < 10 ^ Z.of_nat (digitsFuel n).
Proof.
  intros Hn. unfold digitsFuel.
  rewrite Nat2Z.inj_succ, Z2Nat.id by apply Z.log2_nonneg.
  destruct (Z.eq_dec n 0) as [->|Hne]; [done|].
  pose proof (Z.log2_spec n ltac:(lia)) as [_ Hlt].
  eapply Z.lt_le_trans; [exact Hlt|].
  apply Z.pow_le_mono_l. lia.
Qed.

(** For numbers that fit, [pad] is the fixed-width rendering. *)
Lemma pad_fixedDigits (num : Z) (size : nat) :
  (1 ≤ size)%nat → 0 ≤ num < 10 ^ Z.of_nat size →
  pad num size = fixedDigits size num.
Proof.
  intros Hsize Hnum. unfold pad, numberToString.
  destruct (Z.ltb_spec num 0) as [?|_]; [lia|].
  destruct (digitsLoop_spec (digitsFuel num) num EmptyString) as (s & Hs & _ & Hfix).
  { unfold digitsFuel; lia. }
  { split; [lia | apply digitsFuel_enough; lia]. }
  rewrite Hs, string_app_nil_r.
  destruct (Hfix size Hsize) as [Hle Heq]; [lia|].
  rewrite padLoop_spec by lia. done.
Qed.

Lemma fixedDigits_compare (w : nat) :
  ∀ a b : Z, 0 ≤ a → a < b → b < 10 ^ Z.of_nat w →
    String.compare (fixedDigits w a) (fixedDigits w b) = Lt.
Proof.
  induction w as [|w IH]; intros a b Ha Hab Hb.
  - change (10 ^ Z.of_nat 0) with 1 in Hb. lia.
  - cbn [fixedDigits String.compare].
    pose proof (pow10_pos w) as Hp. rewrite pow10_S in Hb.
    assert (0 ≤ a / 10 ^ Z.of_nat w < 10) as Hda.
    { split; [apply Z.div_pos; lia | apply Z.div_lt_upper_bound; lia]. }
    assert (0 ≤ b / 10 ^ Z.of_nat w < 10) as Hdb.
    { split; [apply Z.div_pos; lia | apply Z.div_lt_upper_bound; lia]. }
    rewrite !(Z.mod_small (_ / _) 10) by done.
    rewrite digitChar_compare by done.
    assert (a / 10 ^ Z.of_nat w ≤ b / 10 ^ Z.of_nat w) as Hle
      by (apply Z.div_le_mono; lia).
    destruct (Z.compare_spec (a / 10 ^ Z.of_nat w) (b / 10 ^ Z.of_nat w))
      as [Heq|Hlt|Hgt]; [|done|lia].
    apply IH.
    + apply Z.mod_pos_bound; lia.
    + pose proof (Z.div_mod a (10 ^ Z.of_nat w) ltac:(lia)) as E1.
      pose proof (Z.div_mod b (10 ^ Z.of_nat w) ltac:(lia)) as E2.
      rewrite Heq in E1. lia.
    + apply Z.mod_pos_bound; lia.
Qed.

(** ** The identifier generator *)

Lemma times_length {A} (n : Z) (f : Z → A) : length (times n f) = Z.to_nat n.
Proof. unfold times. by rewrite length_fmap, length_seqZ. Qed.

Lemma times_lookup {A} (n : Z) (f : Z → A) (i : nat) :
  Z.of_nat i < n → times n f !! i = Some (f (Z.of_nat i)).
Proof.
  intros Hi. unfold times. rewrite list_lookup_fmap, lookup_seqZ_lt by done.
  simpl. f_equal.
Qed.

Lemma getParams_length (prefix : string) (start number : Z) :
  length (getParams prefix start number) = Z.to_nat number.
Proof. apply times_length. Qed.

Lemma getParams_lookup (prefix : string) (start number : Z) (i : nat) :
  Z.of_nat i < number →
  getParams prefix start number !! i
  = Some (prefix +:+ pad (start + Z.of_nat i) Const.caseNumLength).
Proof. intros Hi. unfold getParams. by rewrite times_lookup. Qed.

Lemma string_compare_refl (a : string) : String.compare a a = Eq.
Proof.
  induction a as [|c a IH]; [done|].
  simpl. by rewrite ascii_compare_refl.
Qed.

Lemma string_ltb_irrefl (a : string) : String.ltb a a = false.
Proof. unfold String.ltb. by rewrite string_compare_refl. Qed.

(** C3 (as amended): when the whole range fits in ten digits, that is
    [start + count <= 10^10], the generator yields exactly [count]
    identifiers, the [i]-th being the prefix followed by [start + i]
    zero-padded to width 10; they are strictly increasing, pairwise
    distinct and of fixed width.  In particular prefix "IOE", start
    900677923 and count 3 give the three identifiers of the scenario. *)
Theorem getParams_generator (prefix : string) (start count : Z) :
  0 ≤ start → 0 < count → start + count ≤ 10 ^ 10 →
  GeneratorSpec prefix start count
  ∧ getParams "IOE" 900677923 3
    = ["IOE0900677923"; "IOE0900677924"; "IOE0900677925"].
Proof.
  intros Hstart Hcount Hfit. split; [|by vm_compute].
  assert (Hith : ∀ i : nat, Z.of_nat i < count →
    getParams prefix start count !! i
    = Some (prefix +:+ fixedDigits Const.caseNumLength (start + Z.of_nat i))).
  { intros i Hi. rewrite getParams_lookup by done.
    rewrite pad_fixedDigits; [done | unfold Const.caseNumLength; lia |].
    change (10 ^ Z.of_nat Const.caseNumLength) with (10 ^ 10). lia. }
  assert (Hbound : ∀ (i : nat) (a : string),
    getParams prefix start count !! i = Some a → Z.of_nat i < count).
  { intros i a Hi. apply lookup_lt_Some in Hi.
    rewrite getParams_length in Hi. lia. }
  assert (Hinc : ∀ (i j : nat) (a b : string),
    getParams prefix start count !! i = Some a →
    getParams prefix start count !! j = Some b →
    (i < j)%nat → String.ltb a b = true).
  { intros i j a b Ha Hb Hij.
    pose proof (Hbound _ _ Ha) as Hi. pose proof (Hbound _ _ Hb) as Hj.
    rewrite Hith in Ha by done. rewrite Hith in Hb by done.
    apply (inj Some) in Ha, Hb. subst a b.
    unfold String.ltb. rewrite string_compare_app.
    rewrite fixedDigits_compare; [done | lia | lia |].
    change (10 ^ Z.of_nat Const.caseNumLength) with (10 ^ 10). lia. }
  unfold GeneratorSpec. cbv zeta.
  split; [apply getParams_length|].
  split; [exact Hith|].
  split; [exact Hinc|].
  split.
  - apply NoDup_alt. intros i j a Ha Hb.
    destruct (Nat.lt_trichotomy i j) as [Hlt|[Heq|Hgt]]; [|done|].
    + pose proof (Hinc _ _ _ _ Ha Hb Hlt) as Habs.
      by rewrite string_ltb_irrefl in Habs.
    + pose proof (Hinc _ _ _ _ Hb Ha Hgt) as Habs.
      by rewrite string_ltb_irrefl in Habs.
  - intros a Ha. apply list_elem_of_lookup in Ha as [i Hi].
    pose proof (Hbound _ _ Hi) as Hlt.
    rewrite Hith in Hi by done. apply (inj Some) in Hi. subst a.
    by rewrite string_app_length, fixedDigits_length.
Qed.

Lemma getParams_generator_witness :
  GeneratorSpec "IOE" 900677923 3
  ∧ getParams "IOE" 900677923 3
    = ["IOE0900677923"; "IOE0900677924"; "IOE0900677925"].
Proof. apply (getParams_generator "IOE" 900677923 3); lia. Defined.

(** C3 as stated fails: non-negative start 9999999999 and positive count
    2 produce "IOE10000000000", one character wider than its
    predecessor and smaller than it in string order. *)
Lemma getParams_generator_counterexample :
  0 ≤ 9999999999 ∧ 0 < 2 ∧ ¬ GeneratorSpec "IOE" 9999999999 2.
Proof.
  split; [lia|]. split; [lia|].
  intros (_ & _ & _ & _ & Hwidth).
  specialize (Hwidth "IOE10000000000").
  assert ("IOE10000000000" ∈ getParams "IOE" 9999999999 2) as Hin.
  { apply list_elem_of_lookup. exists 1%nat. by vm_compute. }
  specialize (Hwidth Hin). vm_compute in Hwidth. discriminate.
Qed.

Example pad_sample : pad 900677923 10 = "0900677923".
Proof. vm_compute. reflexivity. Qed.

Example getParams_sample :
  getParams "IOE" 900677923 3 = ["IOE0900677923"; "IOE0900677924"; "IOE0900677925"].
Proof. vm_compute. reflexivity. Qed.

Example getParams_wide :
  getParams "IOE" 9999999999 2 = ["IOE9999999999"; "IOE10000000000"].
Proof. vm_compute. reflexivity. Qed.

(** ** The monad of the script *)

Lemma bind_unfold {A B} (m : M A) (k : A → M B) (w : World) :
  (m ≫= k) w
  = match m w with
    | Returned a w' => k a w'
    | Thrown e w' => Thrown e w'
    | OutOfFuel => OutOfFuel
    end.
Proof. reflexivity. Qed.

Lemma bind_Returned {A B} (m : M A) (k : A → M B) (w w' : World) (a : A) :
  m w = Returned a w' → (m ≫= k) w = k a w'.
Proof. intros Hm. by rewrite bind_unfold, Hm. Qed.

Lemma bind_assoc {A B C} (m : M A) (k : A → M B) (k' : B → M C) (w : World) :
  ((m ≫= k) ≫= k') w = (m ≫= (λ a, k a ≫= k')) w.
Proof. rewrite !bind_unfold. by destruct (m w). Qed.

Section ScriptFacts.
Context `{External}.

(** [extractInfo] hands exactly one outcome to its callback. *)
Lemma extractInfo_callback {R} (body : Page)
    (callback : option ExtractError → option Info → M R) (w : World) :
  extractInfo body callback w
  = (r ← extraction body; callback r.1 r.2) w.
Proof.
  unfold extraction, extractInfo.
  destruct body as [err|dom]; [done|].
  cbv zeta.
  repeat match goal with
  | |- context [extract dom ?sel] =>
      let x := fresh "field" in
      generalize (extract dom sel); intros x
  end.
  destruct field as [text|], field0 as [title|];
    try destruct (negb _ || negb _);
    rewrite !bind_unfold;
    repeat match goal with
    | |- context [getErrorType ?d ?w] => destruct (getErrorType d w)
    | |- context [infoParser ?a ?b ?w] => destruct (infoParser a b w)
    end; done.
Qed.

(** As long as the extraction hands something back: after a transport
    error, and for whatever the extraction hands to its callback (an
    extraction failure of any of the three classified kinds, a parser
    error, or a classified document), the lookup hands exactly one
    result record to its callback, with no error argument; after a
    transport failure the record has type "FAILED", the current time as
    its date and no raw fields.  (The page on which the extraction
    itself raises comes with the facts about one lookup, below.) *)
Theorem retrieveCaseStatus_calls_back_once (caseNum' : string) (w : World) :
  CapabilityOutcome caseNum' w →
  ∃ (res : CaseResult) (w' : World),
    (∀ (R : Type) (callback : option ExtractError → CaseResult → M R),
       retrieveCaseStatus caseNum' callback w = callback None res w')
    ∧ (∀ err : string, remote caseNum' = TransportError err →
         res = failedRecord caseNum').
Proof.
  intros [err Hremote | body err info w' Hremote Hext].
  - eexists _, _. split.
    + intros R callback. unfold retrieveCaseStatus.
      rewrite Hremote. reflexivity.
    + intros _ _. reflexivity.
  - assert (∃ res w'', ∀ R (callback : option ExtractError → CaseResult → M R),
       retrieveCaseStatus caseNum' callback w = callback None res w'')
      as (res & w'' & Hres).
    { rewrite bind_unfold in Hext. simpl in Hext.
      set (w1 := {| BLOCKED := _ |}) in Hext.
      assert (∀ R (callback : option ExtractError → CaseResult → M R),
        retrieveCaseStatus caseNum' callback w
        = (r ← extraction body;
           match r.1 with
           | Some e =>
               if bool_decide (err_type e = Some "BLOCKED") then
                 set_BLOCKED true;; callback None (failedRecord caseNum')
               else if bool_decide (err_type e = Some "NOT_FOUND") then
                 console_log (LogDoesNotExist caseNum');;
                 callback None {| caseNum := None; type := Some "NEXIST";
                                  date := None; data := None |}
               else callback None (failedRecord caseNum')
           | None => callback None (extend (failedRecord caseNum') r.2 caseNum')
           end) w1) as Hshape.
      { intros R callback. unfold retrieveCaseStatus.
        rewrite Hremote, bind_unfold. simpl. fold w1.
        by rewrite extractInfo_callback. }
      destruct err as [e|].
      - destruct (bool_decide (err_type e = Some "BLOCKED")) eqn:Hb;
          [|destruct (bool_decide (err_type e = Some "NOT_FOUND")) eqn:Hn].
        all: eexists _, _; intros R callback;
          rewrite Hshape, bind_unfold, Hext; cbn [fst snd];
          rewrite Hb, ?Hn; reflexivity.
      - eexists _, _. intros R callback.
        rewrite Hshape, bind_unfold, Hext. reflexivity. }
    exists res, w''. split; [done|].
    intros err' Herr. congruence.
Qed.

(** C10: when the extraction failure of a lookup is classified as
    not-found, the record handed to the callback has the single field
    [type] with value "NEXIST": no case number, no date and no raw
    data. *)
Theorem retrieveCaseStatus_not_found (caseNum' : string) (body : Page)
    (w w1 : World) :
  remote caseNum' = Reply body →
  (request_post caseNum';; extraction body) w
  = Returned (Some (InfoError "NOT_FOUND" "info extraction failed"), None) w1 →
  ∃ (res : CaseResult) (w' : World),
    (∀ (R : Type) (callback : option ExtractError → CaseResult → M R),
       retrieveCaseStatus caseNum' callback w = callback None res w')
    ∧ res = {| caseNum := None; type := Some "NEXIST"; date := None; data := None |}
    ∧ caseNum res = None ∧ date res = None ∧ data res = None.
Proof.
  intros Hremote Hext.
  eexists _, _. split; [|done].
  intros R callback. unfold retrieveCaseStatus.
  rewrite bind_unfold in Hext. simpl in Hext.
  rewrite Hremote, bind_unfold. simpl.
  rewrite extractInfo_callback, bind_unfold, Hext. simpl.
  reflexivity.
Qed.
End ScriptFacts.

Lemma retrieveCaseStatus_calls_back_once_witness :
  CapabilityOutcome (H := sampleExternal) "IOE0900677924" initialWorld
  ∧ ∃ (res : CaseResult) (w' : World),
      (∀ (R : Type) (callback : option ExtractError → CaseResult → M R),
         retrieveCaseStatus (H := sampleExternal) "IOE0900677924" callback initialWorld
         = callback None res w')
      ∧ (∀ err : string,
           remote (External := sampleExternal) "IOE0900677924" = TransportError err →
           res = failedRecord (H := sampleExternal) "IOE0900677924").
Proof.
  assert (CapabilityOutcome (H := sampleExternal) "IOE0900677924" initialWorld) as Hout.
  { eapply (extraction_outcome (H := sampleExternal)); reflexivity. }
  split; [exact Hout|].
  exact (retrieveCaseStatus_calls_back_once (H := sampleExternal)
           "IOE0900677924" initialWorld Hout).
Defined.

Lemma retrieveCaseStatus_not_found_witness :
  ∃ (res : CaseResult) (w' : World),
    (∀ (R : Type) (callback : option ExtractError → CaseResult → M R),
       retrieveCaseStatus (H := sampleExternal) "IOE0900677924" callback initialWorld
       = callback None res w')
    ∧ res = {| caseNum := None; type := Some "NEXIST"; date := None; data := None |}
    ∧ caseNum res = None ∧ date res = None ∧ data res = None.
Proof.
  eapply (retrieveCaseStatus_not_found (H := sampleExternal) "IOE0900677924");
    reflexivity.
Defined.

(** ** The status classifier *)

Lemma split_no_sep (sep : ascii) (s : string) :
  (∀ c : ascii, c ∈ String.list_ascii_of_string s → c ≠ sep) →
  split sep s = [s].
Proof.
  induction s as [|c s IH]; intros Hs; [done|].
  simpl. destruct (Ascii.eqb_spec c sep) as [->|Hne].
  - exfalso. apply (Hs sep); [|done]. simpl. apply list_elem_of_here.
  - rewrite IH; [done|].
    intros c' Hc'. apply Hs. simpl. by apply list_elem_of_further.
Qed.

(** On a heading without path syntax [_.has] is the membership test of
    the table. *)
Lemma has_plainKey (object : gmap string string) (key : string) :
  plainKey key → has object key = bool_decide (is_Some (object !! key)).
Proof.
  intros Hplain. unfold has, castPath.
  destruct (object !! key) as [v|] eqn:Hlook.
  - rewrite bool_decide_eq_true_2 by eauto. by rewrite Hlook.
  - rewrite bool_decide_eq_false_2 by (intros [? ?]; done).
    rewrite split_no_sep by (intros c Hc; by apply Hplain).
    by rewrite Hlook.
Qed.

Section ClassifierFacts.
Context `{External}.

Lemma getType_mapped (key ty : string) (w : World) :
  plainKey key → titleToType !! key = Some ty →
  getType key w = Returned (Some ty) w.
Proof.
  intros Hplain Hlook. unfold getType.
  rewrite has_plainKey, Hlook by done.
  by rewrite bool_decide_eq_true_2 by eauto.
Qed.

Lemma getType_unmapped (key : string) (w : World) :
  plainKey key → titleToType !! key = None →
  getType key w = (console_log (LogUnknownKey key);; mret (Some "UNKNOWN")) w.
Proof.
  intros Hplain Hlook. unfold getType.
  rewrite has_plainKey, Hlook by done.
  by rewrite bool_decide_eq_false_2 by (intros [? ?]; done).
Qed.

Example infoParser_approved (text : string) (w : World) :
  infoParser text "Case Was Approved" w
  = Returned {| info_data := {| raw := Some text; heading := Some "Case Was Approved" |};
                info_type := Some "APPROVED";
                info_date := getDate (Some text) |} w.
Proof. reflexivity. Qed.

Example infoParser_something_new (text : string) (w : World) :
  infoParser text "Something New" w
  = Returned {| info_data := {| raw := Some text; heading := Some "Something New" |};
                info_type := Some "UNKNOWN";
                info_date := getDate (Some text) |}
             {| BLOCKED := BLOCKED w; results := results w;
                console := console w ++ [LogUnknownKey "Something New"];
                posted := posted w |}.
Proof. reflexivity. Qed.

(** C5 (the code departs from it): the heading "Case Approved.length"
    is not in the taxonomy, yet [_.has] reads it as the path
    [length] inside the entry "Case Approved" and answers [true]; the
    record gets the type [undefined] instead of "UNKNOWN" and no
    diagnostic is logged. *)
Theorem infoParser_path_heading (text : string) (w : World) :
  titleToType !! "Case Approved.length" = None
  ∧ infoParser text "Case Approved.length" w
    = Returned {| info_data := {| raw := Some text;
                                  heading := Some "Case Approved.length" |};
                  info_type := None;
                  info_date := getDate (Some text) |} w.
Proof. split; reflexivity. Qed.

(** ** Failure pages *)

Lemma getErrorType_blocked (dom : Dom) (w : World) :
  labelFor (select dom "label") = Some "accessviolation" →
  getErrorType dom w = Returned "BLOCKED" w.
Proof.
  intros Hlabel. unfold getErrorType. cbv zeta.
  by rewrite bool_decide_eq_true_2.
Qed.

Lemma getErrorType_not_found (dom : Dom) (raw' : string) (w : World) :
  labelFor (select dom "label") = Some "receipt_number" →
  headingRaw (select dom "#formErrorMessages h4") = Some raw' →
  split " " raw' !! 0%nat = Some "Validation" →
  getErrorType dom w = Returned "NOT_FOUND" w.
Proof.
  intros Hlabel Hraw Hmsg. unfold getErrorType. cbv zeta.
  rewrite Hlabel, Hraw.
  rewrite bool_decide_eq_false_2 by done.
  rewrite bool_decide_eq_true_2 by done.
  by rewrite bool_decide_eq_true_2.
Qed.

Lemma getErrorType_unknown (dom : Dom) (w : World) :
  labelFor (select dom "label") ≠ Some "accessviolation" →
  (labelFor (select dom "label") = Some "receipt_number" →
   ∃ raw', headingRaw (select dom "#formErrorMessages h4") = Some raw'
           ∧ split " " raw' !! 0%nat ≠ Some "Validation") →
  getErrorType dom w
  = (console_log (LogUnknownErrorType (select dom "label"));; mret "UNKNOWN") w.
Proof.
  intros Hlabel Hraw. unfold getErrorType. cbv zeta.
  rewrite bool_decide_eq_false_2 by done.
  case_bool_decide as Hreceipt; [|done].
  destruct (Hraw Hreceipt) as (raw' & -> & Hmsg).
  by rewrite bool_decide_eq_false_2.
Qed.

(** C4 (the code departs from it): a failure page whose first label is
    the receipt-number label and which has no error heading is one of
    the "other" failure shapes, yet it is not classified as unknown
    and no diagnostic is printed: reading the heading raises a
    [TypeError]. *)
Theorem getErrorType_missing_heading (w : World) :
  getErrorType (errorPage "receipt_number" None) w
  = Thrown (TypeError "Cannot read property 'split' of undefined") w.
Proof. reflexivity. Qed.

(** ** Dates *)

(** C6 (the code departs from it): when the date token of a body text
    does not parse, moment returns an invalid moment without raising,
    the [catch] branch is not taken, and the record carries the
    invalid moment and its label, not the current time.  The
    classification itself still produces its record. *)
Theorem getDate_unparsable (text title : string) (w : World) :
  momentParse (dateToken text) "MMM DD  YYYY" = InvalidMoment →
  getDate (Some text)
  = {| d_date := InvalidMoment;
       d_string := momentFormat InvalidMoment "dddd, MMMM Do YYYY" |}
  ∧ d_date (getDate (Some text)) ≠ moment_now
  ∧ ∃ (info : Info) (w' : World),
      infoParser text title w = Returned info w'
      ∧ d_date (info_date info) = InvalidMoment.
Proof.
  intros Hparse.
  assert (getDate (Some text)
          = {| d_date := InvalidMoment;
               d_string := momentFormat InvalidMoment "dddd, MMMM Do YYYY" |}) as Hdate.
  { unfold getDate. cbv zeta. fold (dateToken text). by rewrite Hparse. }
  split; [exact Hdate|]. split; [by rewrite Hdate|].
  unfold infoParser. rewrite bind_unfold.
  unfold getType. destruct (has titleToType title).
  - eexists _, _. split; [reflexivity|].
    change (d_date (getDate (Some text)) = InvalidMoment). by rewrite Hdate.
  - eexists _, _. split; [reflexivity|].
    change (d_date (getDate (Some text)) = InvalidMoment). by rewrite Hdate.
Qed.
End ClassifierFacts.

Lemma getDate_unparsable_witness :
  getDate (H := sampleExternal) (Some "Your case is pending.")
  = {| d_date := InvalidMoment; d_string := "Invalid date" |}
  ∧ d_date (getDate (H := sampleExternal) (Some "Your case is pending."))
    ≠ moment_now (H := sampleExternal)
  ∧ ∃ (info : Info) (w' : World),
      infoParser (H := sampleExternal) "Your case is pending." "Case Was Approved" initialWorld
      = Returned info w'
      ∧ d_date (info_date info) = InvalidMoment.
Proof.
  apply (getDate_unparsable (H := sampleExternal)
           "Your case is pending." "Case Was Approved" initialWorld).
  reflexivity.
Defined.

(** ** The aggregator *)

Lemma sum_app (l k : list Z) :
  foldr Z.add 0 (l ++ k) = foldr Z.add 0 l + foldr Z.add 0 k.
Proof. induction l as [|x l IH]; simpl; lia. Qed.

Lemma sum_Permutation (l k : list Z) :
  l ≡ₚ k → foldr Z.add 0 l = foldr Z.add 0 k.
Proof. induction 1; simpl; lia. Qed.

Lemma sumValues_empty {V} (f : V → Z) : sumValues f ∅ = 0.
Proof. unfold sumValues. by rewrite map_to_list_empty. Qed.

Lemma sumValues_insert_fresh {V} (f : V → Z) (m : gmap string V) (k : string) (v : V) :
  m !! k = None → sumValues f (<[k:=v]> m) = f v + sumValues f m.
Proof.
  intros Hk. unfold sumValues.
  rewrite (sum_Permutation _ (f <$> ((k, v) :: map_to_list m).*2)); [done|].
  by rewrite map_to_list_insert.
Qed.

Lemma sumValues_insert {V} (f : V → Z) (m : gmap string V) (k : string) (v : V) :
  sumValues f (<[k:=v]> m) = f v + sumValues f m - default 0 (f <$> m !! k).
Proof.
  destruct (m !! k) as [old|] eqn:Hk; simpl.
  - rewrite <- insert_delete_eq.
    rewrite sumValues_insert_fresh by apply lookup_delete_eq.
    rewrite <- (insert_delete_id m k old) at 2 by done.
    rewrite sumValues_insert_fresh by apply lookup_delete_eq. lia.
  - rewrite sumValues_insert_fresh by done. lia.
Qed.

Section AggregatorFacts.
Context `{External}.

Lemma sumTotals_sumValues (groups : Buckets) :
  sumTotals groups = sumValues (sumValues total) groups.
Proof.
  unfold sumTotals, buckets, sumValues.
  induction ((map_to_list groups).*2) as [|day days IH]; [done|].
  rewrite bind_cons, fmap_app, sum_app, IH, fmap_cons. done.
Qed.

Lemma getBucket_setBucket (acc0 : Buckets) (d t d' t' : string) (v : Bucket) :
  getBucket (setBucket acc0 d t v) d' t'
  = if decide (d = d' ∧ t = t') then Some v else getBucket acc0 d' t'.
Proof.
  unfold getBucket, setBucket.
  destruct (decide (d = d')) as [<-|Hd].
  - rewrite lookup_insert_eq. simpl.
    destruct (decide (t = t')) as [<-|Ht].
    + rewrite lookup_insert_eq. by rewrite decide_True.
    + rewrite lookup_insert_ne by done.
      rewrite decide_False by (intros [_ ?]; done).
      by destruct (acc0 !! d).
  - rewrite lookup_insert_ne by done.
    by rewrite decide_False by (intros [? _]; done).
Qed.

Lemma sumTotals_setBucket (acc0 : Buckets) (d t : string) (v : Bucket) :
  sumTotals (setBucket acc0 d t v)
  = sumTotals acc0 + total v - default 0 (total <$> getBucket acc0 d t).
Proof.
  rewrite !sumTotals_sumValues. unfold setBucket, getBucket.
  rewrite sumValues_insert, sumValues_insert.
  destruct (acc0 !! d) as [day|]; simpl; [lia|].
  rewrite sumValues_empty, lookup_empty. simpl. lia.
Qed.

Lemma group_snoc (res : list CaseResult) (item : CaseResult) :
  group (res ++ [item]) = groupStep (group res) item.
Proof. unfold group. by rewrite foldl_app. Qed.

(** Every bucket of [group res] holds exactly the records of [res]
    with its key, in input order, and counts them. *)
Lemma group_bucket (res : list CaseResult) (d t : string) :
  getBucket (group res) d t
  = match members res d t with
    | [] => None
    | first :: _ =>
        Some {| items := members res d t;
                total := Z.of_nat (length (members res d t));
                b_type := t; b_date := d;
                b_unix := unix (itemDate first) |}
    end.
Proof.
  induction res as [|item res IH] using rev_ind; [done|].
  rewrite group_snoc. unfold groupStep. cbv zeta.
  rewrite getBucket_setBucket.
  unfold members in *. rewrite filter_app.
  destruct (decide (itemDateString item = d ∧ itemType item = t)) as [[<- <-]|Hkey].
  - rewrite (filter_cons_True _ item []) by done. rewrite filter_nil.
    rewrite IH.
    destruct (filter _ res) as [|first rest]; simpl; [done|].
    do 2 f_equal. rewrite length_app. simpl. lia.
  - rewrite (filter_cons_False _ item []) by done. rewrite filter_nil.
    by rewrite app_nil_r.
Qed.

Lemma sumTotals_group (res : list CaseResult) :
  sumTotals (group res) = Z.of_nat (length res).
Proof.
  induction res as [|item res IH] using rev_ind; [done|].
  rewrite group_snoc. unfold groupStep. cbv zeta.
  rewrite sumTotals_setBucket, IH, length_app. simpl.
  destruct (getBucket (group res) _ _); simpl; lia.
Qed.

(** C8: for every finite sequence of result records, the totals of the
    buckets built by [group] add up to the length of the sequence, and
    every input record is a member of exactly one (date label, type)
    bucket. *)
Theorem group_partition (res : list CaseResult) :
  sumTotals (group res) = Z.of_nat (length res)
  ∧ ∀ item : CaseResult, item ∈ res →
      ∃ (d t : string) (b : Bucket),
        getBucket (group res) d t = Some b
        ∧ item ∈ items b
        ∧ ∀ (d' t' : string) (b' : Bucket),
            getBucket (group res) d' t' = Some b' → item ∈ items b' →
            d' = d ∧ t' = t.
Proof.
  split; [apply sumTotals_group|].
  intros item Hitem.
  assert (∀ d t b, getBucket (group res) d t = Some b →
                   items b = members res d t) as Hitems.
  { intros d t b. rewrite group_bucket.
    destruct (members res d t) eqn:Hm; [done|]. by intros [= <-]. }
  assert (item ∈ members res (itemDateString item) (itemType item)) as Hin.
  { unfold members. by apply list_elem_of_filter. }
  pose proof (group_bucket res (itemDateString item) (itemType item)) as Hb.
  destruct (members res (itemDateString item) (itemType item))
    as [|first rest] eqn:Hm; [by apply elem_of_nil in Hin|].
  eexists _, _, _. split; [exact Hb|]. split; [done|].
  intros d' t' b' Hb' Hin'.
  rewrite (Hitems _ _ _ Hb') in Hin'.
  unfold members in Hin'. apply list_elem_of_filter in Hin' as [[-> ->] _]. done.
Qed.
End AggregatorFacts.

Example group_sample :
  sumTotals (group (H := sampleExternal)
    [failedRecord (H := sampleExternal) "IOE0900677928";
     {| caseNum := None; type := Some "NEXIST"; date := None; data := None |};
     failedRecord (H := sampleExternal) "IOE0900677929"]) = 3.
Proof. by vm_compute. Qed.

(** ** One lookup and the globals *)

Ltac run_binds := repeat (rewrite bind_unfold; simpl).

Section SchedulerFacts.
Context `{External}.

Lemma sameGlobals_refl (w : World) : sameGlobals w w.
Proof. by unfold sameGlobals. Qed.

Lemma sameGlobals_trans (w1 w2 w3 : World) :
  sameGlobals w1 w2 → sameGlobals w2 w3 → sameGlobals w1 w3.
Proof.
  unfold sameGlobals. intros (?&?&?) (?&?&?). repeat split; congruence.
Qed.

Lemma lookedUp_sameGlobals (caseNum' : string) (w1 w2 w3 : World) :
  lookedUp caseNum' w1 w2 → sameGlobals w2 w3 → lookedUp caseNum' w1 w3.
Proof.
  unfold lookedUp, sameGlobals. intros (?&?&?) (Hb&?&?).
  repeat split; try congruence. rewrite Hb. done.
Qed.

Lemma getType_effect (key : string) (w : World) :
  ∃ ty w', getType key w = Returned ty w' ∧ sameGlobals w w'.
Proof.
  unfold getType. destruct (has titleToType key).
  - eexists _, _. split; [reflexivity | apply sameGlobals_refl].
  - eexists _, _. split; [reflexivity | done].
Qed.

Lemma infoParser_effect (text title : string) (w : World) :
  ∃ info w', infoParser text title w = Returned info w' ∧ sameGlobals w w'.
Proof.
  unfold infoParser. rewrite bind_unfold.
  destruct (getType_effect title w) as (ty & w' & -> & Hw).
  by eexists _, _.
Qed.

Lemma getErrorType_effect (dom : Dom) (w : World) :
  terminates (getErrorType dom w) ∧ endsIn (sameGlobals w) (getErrorType dom w).
Proof.
  unfold getErrorType. cbv zeta.
  repeat case_bool_decide; try destruct (headingRaw _); simpl;
    repeat case_bool_decide; simpl; by unfold sameGlobals.
Qed.

Lemma extraction_effect (body : Page) (w : World) :
  terminates (extraction body w) ∧ endsIn (sameGlobals w) (extraction body w).
Proof.
  unfold extraction, extractInfo.
  destruct body as [err|dom]; [by unfold sameGlobals|].
  cbv zeta.
  repeat match goal with
  | |- context [extract dom ?sel] =>
      let x := fresh "field" in
      generalize (extract dom sel); intros x
  end.
  assert (∀ w0, sameGlobals w w0 →
    terminates ((ty ← getErrorType dom;
                 mret (Some (InfoError ty "info extraction failed"), @None Info)) w0)
    ∧ endsIn (sameGlobals w)
        ((ty ← getErrorType dom;
          mret (Some (InfoError ty "info extraction failed"), @None Info)) w0))
    as Hsalvage.
  { intros w0 Hw0. rewrite bind_unfold.
    destruct (getErrorType_effect dom w0) as [Hterm Hends].
    destruct (getErrorType dom w0) as [ty w'| e w'|]; simpl in *; try done.
    - split; [done|]. by eapply sameGlobals_trans.
    - split; [done|]. by eapply sameGlobals_trans. }
  destruct field as [text|], field0 as [title|];
    try (apply Hsalvage, sameGlobals_refl).
  destruct (negb _ || negb _); [apply Hsalvage, sameGlobals_refl|].
  rewrite bind_unfold.
  match goal with
  | |- context [infoParser ?a ?b w] =>
      destruct (infoParser_effect a b w) as (info & w' & -> & Hw)
  end.
  done.
Qed.

(** A lookup never runs out of fuel, never passes an error to its
    callback, posts its case number and leaves a set flag set. *)
Lemma lookup_effect (caseNum' : string) (w : World) :
  match lookup caseNum' w with
  | Returned r w' => r.1 = None ∧ lookedUp caseNum' w w'
  | Thrown _ w' => lookedUp caseNum' w w'
  | OutOfFuel => False
  end.
Proof.
  unfold lookup, retrieveCaseStatus.
  rewrite bind_unfold. simpl.
  set (w1 := {| BLOCKED := BLOCKED w |}).
  assert (lookedUp caseNum' w w1) as Hw1 by done.
  destruct (remote caseNum') as [err|body]; [done|].
  rewrite extractInfo_callback, bind_unfold.
  destruct (extraction_effect body w1) as [Hterm Hends].
  destruct (extraction body w1) as [[err res] w2|e w2|]; simpl in *;
    [| |done].
  - assert (lookedUp caseNum' w w2) as Hw2 by (by eapply lookedUp_sameGlobals).
    destruct err as [e|]; [|done].
    repeat case_bool_decide; simpl; split; try done.
    destruct Hw2 as (?&?&?). by repeat split.
  - by eapply lookedUp_sameGlobals.
Qed.

(** A document on which the extraction fails and whose first label is
    the access-violation label. *)
Lemma lookup_access_violation (caseNum' : string) (dom : Dom) (w : World) :
  remote caseNum' = Reply (Document dom) →
  accessViolation dom →
  ∃ res w', lookup caseNum' w = Returned (None, res) w' ∧ BLOCKED w' = true.
Proof.
  intros Hremote [Hfail Hlabel].
  unfold lookup, retrieveCaseStatus.
  rewrite bind_unfold. simpl. rewrite Hremote.
  unfold extractInfo. cbv zeta.
  unfold extractionFails in Hfail.
  change (join " " [Const.selectors_main; Const.selectors_type]) with "div.rows h1" in *.
  change (join " " [Const.selectors_main; Const.selectors_text]) with "div.rows p" in *.
  destruct (extract dom "div.rows h1") as [title|],
           (extract dom "div.rows p") as [text|];
    try rewrite Hfail;
    rewrite bind_unfold, getErrorType_blocked by done;
    by eexists _, _.
Qed.

Lemma retrieveCaseStatus_callback {R} (caseNum' : string)
    (callback : option ExtractError → CaseResult → M R) (w : World) :
  retrieveCaseStatus caseNum' callback w
  = (r ← lookup caseNum'; callback r.1 r.2) w.
Proof.
  unfold lookup, retrieveCaseStatus. run_binds.
  destruct (remote caseNum') as [err|body]; [done|].
  rewrite !extractInfo_callback, !bind_unfold.
  destruct (extraction body _) as [[err res] w1|e w1|]; [|done|done].
  cbn [fst snd]. destruct err as [e|]; [|done].
  repeat case_bool_decide; by run_binds.
Qed.

Lemma getErrorType_raises_iff (dom : Dom) (w : World) :
  (∃ (e : Exception) (w' : World), getErrorType dom w = Thrown e w')
  ↔ labelFor (select dom "label") = Some "receipt_number"
    ∧ headingRaw (select dom "#formErrorMessages h4") = None.
Proof.
  unfold getErrorType. cbv zeta.
  destruct (decide (labelFor (select dom "label") = Some "accessviolation"))
    as [Hav|Hav].
  - rewrite bool_decide_eq_true_2 by done.
    split; [by intros (? & ? & ?) | intros [Hr _]; congruence].
  - rewrite bool_decide_eq_false_2 by done.
    destruct (decide (labelFor (select dom "label") = Some "receipt_number"))
      as [Hrn|Hrn].
    + rewrite bool_decide_eq_true_2 by done.
      destruct (headingRaw (select dom "#formErrorMessages h4")) as [raw'|] eqn:Hraw.
      * split; [|by intros [_ ?]].
        case_bool_decide; by intros (? & ? & ?).
      * split; [done | intros _; by eexists _, _].
    + rewrite bool_decide_eq_false_2 by done.
      split; [by intros (? & ? & ?) | by intros [? _]].
Qed.

Lemma extraction_raises_iff (dom : Dom) (w : World) :
  (∃ (e : Exception) (w' : World), extraction (Document dom) w = Thrown e w')
  ↔ extractionFails dom
    ∧ ∃ (e : Exception) (w' : World), getErrorType dom w = Thrown e w'.
Proof.
  unfold extraction, extractInfo, extractionFails. cbv zeta.
  set (title := extract dom (join " " [Const.selectors_main; Const.selectors_type])).
  set (text := extract dom (join " " [Const.selectors_main; Const.selectors_text])).
  assert ((∃ e w', (ty ← getErrorType dom;
                    mret (Some (InfoError ty "info extraction failed"), @None Info)) w
                   = Thrown e w')
          ↔ ∃ e w', getErrorType dom w = Thrown e w') as Hsalvage.
  { rewrite bind_unfold.
    destruct (getErrorType dom w) as [ty w0|e0 w0|];
      [|split; intros _; by exists e0, w0|]; split; by intros (? & ? & ?). }
  destruct title as [t|], text as [x|];
    try (split; [intros Ht; split; [apply orb_true_iff; by auto | by apply Hsalvage]
                | intros [_ Ht]; by apply Hsalvage]).
  destruct (negb (truthy (Some t)) || negb (truthy (Some x))) eqn:Hfail.
  - split; [intros Ht; split; [done | by apply Hsalvage]
           | intros [_ Ht]; by apply Hsalvage].
  - rewrite bind_unfold.
    destruct (infoParser_effect x t w) as (info & w2 & -> & _).
    split; [by intros (? & ? & ?) | by intros [? _]].
Qed.

Lemma lookup_raises_with_extraction (caseNum' : string) (body : Page) (w : World) :
  remote caseNum' = Reply body →
  (∃ (e : Exception) (w' : World), lookup caseNum' w = Thrown e w')
  ↔ ∃ (e : Exception) (w' : World),
      (request_post caseNum';; extraction body) w = Thrown e w'.
Proof.
  intros Hremote.
  set (w1 := {| BLOCKED := BLOCKED w; results := results w;
                console := console w; posted := posted w ++ [caseNum'] |}).
  assert ((request_post caseNum';; extraction body) w = extraction body w1) as ->
    by done.
  assert (lookup caseNum' w
          = (r ← extraction body;
             retrieveCaseStatus_answer caseNum' r.1 r.2) w1) as ->.
  { unfold lookup, retrieveCaseStatus, retrieveCaseStatus_answer.
    rewrite bind_unfold. simpl. fold w1.
    by rewrite Hremote, extractInfo_callback. }
  rewrite bind_unfold.
  destruct (extraction body w1) as [[err res] w2|e w2|].
  - split; [|by intros (? & ? & ?)].
    intros (e & w' & Hthrown). exfalso.
    unfold retrieveCaseStatus_answer in Hthrown. cbn [fst snd] in Hthrown.
    destruct err as [e0|]; [|done].
    repeat case_bool_decide; by run_binds.
  - split; intros _; by exists e, w2.
  - split; by intros (? & ? & ?).
Qed.

(** The page of [getErrorType_missing_heading] inside a lookup: the
    request has been posted, and nothing else has happened when the
    [TypeError] is raised. *)
Lemma lookup_missing_heading (caseNum' : string) (dom : Dom) (w : World) :
  remote caseNum' = Reply (Document dom) →
  missingHeading dom →
  lookup caseNum' w
  = Thrown (TypeError "Cannot read property 'split' of undefined")
      {| BLOCKED := BLOCKED w; results := results w;
         console := console w; posted := posted w ++ [caseNum'] |}.
Proof.
  intros Hremote (Hfail & Hlabel & Hraw).
  unfold lookup, retrieveCaseStatus.
  rewrite bind_unfold. simpl. rewrite Hremote.
  unfold extractInfo. cbv zeta.
  unfold extractionFails in Hfail.
  change (join " " [Const.selectors_main; Const.selectors_type]) with "div.rows h1" in *.
  change (join " " [Const.selectors_main; Const.selectors_text]) with "div.rows p" in *.
  destruct (extract dom "div.rows h1") as [title|],
           (extract dom "div.rows p") as [text|];
    try rewrite Hfail;
    rewrite bind_unfold; unfold getErrorType; cbv zeta;
    rewrite Hlabel, Hraw;
    rewrite bool_decide_eq_false_2 by done;
    by rewrite bool_decide_eq_true_2.
Qed.

Lemma lookup_thrown (caseNum' : string) (w w' : World) (e : Exception) :
  lookup caseNum' w = Thrown e w' →
  ∃ dom : Dom, remote caseNum' = Reply (Document dom) ∧ missingHeading dom.
Proof.
  intros Hthrown.
  assert (∃ e0 w0, lookup caseNum' w = Thrown e0 w0) as Hraises by eauto.
  destruct (remote caseNum') as [err|[err|dom]] eqn:Hremote.
  - exfalso. unfold lookup, retrieveCaseStatus in Hthrown.
    rewrite bind_unfold in Hthrown. simpl in Hthrown.
    by rewrite Hremote in Hthrown.
  - apply (lookup_raises_with_extraction _ _ _ Hremote) in Hraises.
    by destruct Hraises as (? & ? & ?).
  - apply (lookup_raises_with_extraction _ _ _ Hremote) in Hraises.
    assert ((request_post caseNum';; extraction (Document dom)) w
            = extraction (Document dom)
                {| BLOCKED := BLOCKED w; results := results w;
                   console := console w; posted := posted w ++ [caseNum'] |}) as Hpost
      by done.
    rewrite Hpost in Hraises.
    apply extraction_raises_iff in Hraises as [Hfail Hraises].
    apply getErrorType_raises_iff in Hraises as [Hlabel Hraw].
    by exists dom.
Qed.

(** Any other lookup hands a record to its callback. *)
Lemma lookup_returns (caseNum' : string) (w : World) :
  (∀ dom : Dom, remote caseNum' = Reply (Document dom) → ¬ missingHeading dom) →
  ∃ (res : CaseResult) (w' : World),
    lookup caseNum' w = Returned (None, res) w' ∧ lookedUp caseNum' w w'.
Proof.
  intros Hpage.
  pose proof (lookup_effect caseNum' w) as Heff.
  destruct (lookup caseNum' w) as [[err res] w'|e w'|] eqn:Hlook; [| |done].
  - destruct Heff as [Herr Hw']. simpl in Herr. subst err. by exists res, w'.
  - destruct (lookup_thrown _ _ _ _ Hlook) as (dom & Hremote & Hdom).
    by destruct (Hpage dom Hremote).
Qed.

(** C1 (the code departs from it): a lookup can raise.  When the remote
    service answers with a failure page whose first label is the
    receipt-number label and which has no error heading, the
    [TypeError] of [getErrorType] goes through [extractInfo] and
    [retrieveCaseStatus]: the request has been posted, the callback is
    never called, whatever it is, and no record is produced. *)
Theorem retrieveCaseStatus_raises (caseNum' : string) (dom : Dom) (w : World) :
  remote caseNum' = Reply (Document dom) →
  missingHeading dom →
  ∀ (R : Type) (callback : option ExtractError → CaseResult → M R),
    retrieveCaseStatus caseNum' callback w
    = Thrown (TypeError "Cannot read property 'split' of undefined")
        {| BLOCKED := BLOCKED w; results := results w;
           console := console w; posted := posted w ++ [caseNum'] |}.
Proof.
  intros Hremote Hdom R callback.
  by rewrite retrieveCaseStatus_callback, bind_unfold,
       (lookup_missing_heading _ dom).
Qed.

(** ** A batch *)

Lemma mapAll_effect (params : list string) (w : World) :
  match mapAll (λ R, retrieveCaseStatus (R := R)) params w with
  | Returned r w' =>
      r.1 = None ∧ length r.2 = length params
      ∧ posted w' = posted w ++ params
      ∧ results w' = results w
      ∧ (BLOCKED w = true → BLOCKED w' = true)
  | Thrown _ _ => True
  | OutOfFuel => False
  end.
Proof.
  revert w. induction params as [|p params IH]; intros w.
  - simpl. by rewrite app_nil_r.
  - cbn [mapAll]. rewrite bind_unfold.
    pose proof (lookup_effect p w) as Hp. unfold lookup in Hp.
    destruct (retrieveCaseStatus p _ w) as [[err res] w1|e w1|]; [|done|done].
    destruct Hp as [Herr (Hposted & Hresults & Hflag)]. simpl in Herr. subst err.
    cbn [fst snd]. rewrite bind_unfold.
    specialize (IH w1).
    destruct (mapAll _ params w1) as [[err' rs] w2|e w2|]; [|done|done].
    destruct IH as (Herr' & Hlen & Hposted' & Hresults' & Hflag').
    simpl in *. subst err'.
    repeat split; [by rewrite Hlen| |congruence|by auto].
    rewrite Hposted', Hposted, <- app_assoc. done.
Qed.

Lemma mapAll_access_violation (params : list string) (caseNum' : string)
    (dom : Dom) (w : World) :
  caseNum' ∈ params →
  remote caseNum' = Reply (Document dom) →
  accessViolation dom →
  match mapAll (λ R, retrieveCaseStatus (R := R)) params w with
  | Returned _ w' => BLOCKED w' = true
  | _ => True
  end.
Proof.
  intros Hin Hremote Hdom. revert w.
  induction params as [|p params IH]; intros w; [by apply elem_of_nil in Hin|].
  cbn [mapAll]. rewrite bind_unfold.
  apply elem_of_cons in Hin as [<-|Hin].
  - destruct (lookup_access_violation caseNum' dom w Hremote Hdom)
      as (res & w1 & Hlook & Hflag).
    unfold lookup in Hlook. rewrite Hlook. cbn [fst snd]. rewrite bind_unfold.
    pose proof (mapAll_effect params w1) as Hrest.
    destruct (mapAll _ params w1) as [[err' rs] w2|e w2|]; [|done|done].
    destruct Hrest as (_ & _ & _ & _ & Hkeep). by apply Hkeep.
  - pose proof (lookup_effect p w) as Hp. unfold lookup in Hp.
    destruct (retrieveCaseStatus p _ w) as [[err res] w1|e w1|]; [|done|done].
    destruct Hp as [Herr _]. simpl in Herr. subst err.
    cbn [fst snd]. rewrite bind_unfold.
    specialize (IH Hin w1).
    by destruct (mapAll _ params w1) as [[err' rs] w2|e w2|].
Qed.

Lemma batch_effect (data : Data) (s : Sched) (current' : Z)
    (acc' : list CaseResult) (w' : World) :
  batch data s (world s) = Returned (current', acc') w' →
  current' = current s + intervalSize data
  ∧ (∃ rs, acc' = acc s ++ rs ∧ length rs = length (batchParams data s))
  ∧ posted w' = posted (world s) ++ batchParams data s
  ∧ (BLOCKED (world s) = true → BLOCKED w' = true)
  ∧ (∀ caseNum' dom, caseNum' ∈ batchParams data s →
       remote caseNum' = Reply (Document dom) → accessViolation dom →
       BLOCKED w' = true).
Proof.
  unfold batch. run_binds.
  set (w1 := {| BLOCKED := BLOCKED (world s) |}).
  pose proof (mapAll_effect (batchParams data s) w1) as Heff.
  pose proof (λ c d Hin Hr Hd,
    mapAll_access_violation (batchParams data s) c d w1 Hin Hr Hd) as Hblk.
  destruct (mapAll _ (batchParams data s) w1) as [[err rs] w2|e w2|]; [|done|done].
  destruct Heff as (Herr & Hlen & Hposted & Hresults & Hflag).
  simpl in Herr. subst err. simpl.
  intros [= <- <- <-]. simpl.
  split; [done|]. split; [by exists rs|]. split; [done|]. split; [done|].
  intros c d Hin Hr Hd. exact (Hblk c d Hin Hr Hd).
Qed.

(** A batch that holds a page without error heading raises at that
    page; the lookups before it have been answered, so that an
    access-violation page among them has set the flag. *)
Lemma mapAll_raises (before after : list string) (missing : string) (dom' : Dom) :
  remote missing = Reply (Document dom') →
  missingHeading dom' →
  Forall (λ p, ∀ d : Dom, remote p = Reply (Document d) → ¬ missingHeading d)
         before →
  ∀ w : World,
    ∃ w' : World,
      mapAll (λ R, retrieveCaseStatus (R := R)) (before ++ missing :: after) w
      = Thrown (TypeError "Cannot read property 'split' of undefined") w'
      ∧ results w' = results w
      ∧ (BLOCKED w = true → BLOCKED w' = true)
      ∧ (∀ (blocked : string) (dom : Dom),
           blocked ∈ before → remote blocked = Reply (Document dom) →
           accessViolation dom → BLOCKED w' = true).
Proof.
  intros Hremote Hdom Hbefore.
  induction Hbefore as [|p before Hp Hbefore IH]; intros w.
  - eexists. split; [|split; [|split]].
    + cbn [app mapAll]. rewrite bind_unfold.
      pose proof (lookup_missing_heading missing dom' w Hremote Hdom) as Hlook.
      unfold lookup in Hlook. by rewrite Hlook.
    + done.
    + done.
    + intros blocked dom Hin. by apply elem_of_nil in Hin.
  - destruct (lookup_returns p w Hp) as (res & w1 & Hlook & Hposted & Hresults & Hflag).
    destruct (IH w1) as (w' & Hmap & Hresults' & Hflag' & Hblocked).
    exists w'. split; [|split; [|split]].
    + cbn [app mapAll]. rewrite bind_unfold.
      unfold lookup in Hlook. rewrite Hlook. cbn [fst snd].
      by rewrite bind_unfold, Hmap.
    + congruence.
    + auto.
    + intros blocked dom [<-|Hin]%elem_of_cons Hr Hd; [|by eauto].
      destruct (lookup_access_violation blocked dom w Hr Hd)
        as (res2 & w2 & Hlook2 & Hflag2).
      apply Hflag'. congruence.
Qed.

(** ** [recursiveHelper] and the step relation *)

(** The world in which the final callback runs once the guard has
    stopped the recursion. *)
Lemma recursiveHelper_halted {R} (fuel : nat) (data : Data) (s : Sched)
    (callback : option ExtractError → list CaseResult → M R) :
  halted data s = true →
  recursiveHelper fuel data (current s) (acc s) callback (world s)
  = callback None (acc s) (stopped s).
Proof.
  unfold halted, stopped. intros Hhalt.
  destruct fuel; cbn [recursiveHelper]; run_binds;
    rewrite Hhalt; run_binds;
    destruct (BLOCKED (world s)); simpl; by rewrite ?app_nil_r.
Qed.

Lemma recursiveHelper_batch {R} (fuel : nat) (data : Data) (s : Sched)
    (callback : option ExtractError → list CaseResult → M R) :
  halted data s = false →
  recursiveHelper (S fuel) data (current s) (acc s) callback (world s)
  = (r ← batch data s; recursiveHelper fuel data r.1 r.2 callback) (world s).
Proof.
  unfold halted. intros Hrun.
  cbn [recursiveHelper]. unfold batch, async_map.
  run_binds. rewrite Hrun. run_binds.
  fold (batchParams data s).
  destruct (mapAll _ (batchParams data s) _) as [[err rs] w2|e w2|]; [|done|done].
  simpl. by destruct err.
Qed.

(** One step of the relation is one unfolding of [recursiveHelper]. *)
Lemma recursiveHelper_step {R} (fuel : nat) (data : Data) (s s' : Sched)
    (callback : option ExtractError → list CaseResult → M R) :
  step data s s' →
  recursiveHelper (S fuel) data (current s) (acc s) callback (world s)
  = recursiveHelper fuel data (current s') (acc s') callback (world s').
Proof.
  intros Hstep. inversion Hstep as [s0 current' acc' w' Hrun Hbatch]; subst.
  rewrite recursiveHelper_batch by done.
  by rewrite bind_unfold, Hbatch.
Qed.

Lemma processFinalResults_reports (res : list CaseResult) (w : World) :
  res ≠ [] →
  processFinalResults res w
  = Returned (withMetadata (group res))
      {| BLOCKED := BLOCKED w; results := results w;
         console := console w ++ [LogStatistics (withMetadata (group res))];
         posted := posted w |}.
Proof.
  intros Hres. unfold processFinalResults.
  rewrite bool_decide_eq_true_2; [done|].
  destruct res; [done | simpl; lia].
Qed.

(** As long as the batch is answered in full: if in a batch that
    resolves a lookup meets an extraction failure carrying the
    access-violation marker, then after that batch the blocked flag is
    set; a configuration whose flag is set has no successor in the
    scheduler's step relation, so no batch is ever started again; and
    the results collected before and in that batch are all passed on,
    grouped and reported, without any further request.  (A batch that
    does not resolve is the next theorem's.) *)
Theorem blocked_scheduler_stops (data : Data) (s s' : Sched)
    (caseNum' : string) (dom : Dom) :
  step data s s' →
  caseNum' ∈ batchParams data s →
  remote caseNum' = Reply (Document dom) →
  accessViolation dom →
  BLOCKED (world s') = true
  ∧ (∀ s0 s1 : Sched, BLOCKED (world s0) = true → ¬ step data s0 s1)
  ∧ (∀ s'' : Sched, ¬ step data s' s'')
  ∧ acc s `prefix_of` acc s'
  ∧ ∀ (fuel : nat) (R : Type) (callback : option ExtractError → Groups → M R),
      ∃ w'' : World,
        recursiveHelper fuel data (current s') (acc s')
          (finalProcessing callback) (world s')
        = callback None (withMetadata (group (acc s'))) w''
        ∧ LogStatistics (withMetadata (group (acc s'))) ∈ console w''
        ∧ posted w'' = posted (world s').
Proof.
  intros Hstep Hin Hremote Hdom.
  assert (∀ s0 s1 : Sched, BLOCKED (world s0) = true → ¬ step data s0 s1) as Hnever.
  { intros s0 s1 Hflag Hs. inversion Hs as [s2 c a w2 Hrun _]; subst.
    unfold halted in Hrun. rewrite Hflag, orb_true_r in Hrun. done. }
  inversion Hstep as [s0 current' acc' w' Hrun Hbatch]; subst.
  destruct (batch_effect data s current' acc' w' Hbatch)
    as (Hcur & (rs & Hacc & Hlen) & Hposted & _ & Hblk).
  assert (BLOCKED w' = true) as Hflag by (by eapply Hblk).
  simpl. split; [done|]. split; [done|].
  split; [intros s''; by apply Hnever|].
  split; [by exists rs|].
  intros fuel R callback.
  set (s1 := {| current := current'; acc := acc'; world := w' |}).
  change (recursiveHelper fuel data current' acc' (finalProcessing callback) w')
    with (recursiveHelper fuel data (current s1) (acc s1)
            (finalProcessing callback) (world s1)).
  rewrite recursiveHelper_halted
    by (unfold halted; simpl; by rewrite Hflag, orb_true_r).
  assert (acc' ≠ []) as Hne.
  { rewrite Hacc. intros Happ. apply app_eq_nil in Happ as [_ ->].
    simpl in Hlen. destruct (batchParams data s); [|done].
    by apply elem_of_nil in Hin. }
  unfold finalProcessing. run_binds.
  rewrite processFinalResults_reports by done. run_binds.
  eexists. split; [reflexivity|]. simpl. split; [|done].
  unfold stopped. simpl. rewrite Hflag. simpl.
  apply elem_of_app; left. apply elem_of_app; right. apply list_elem_of_here.
Qed.
End SchedulerFacts.

Lemma blocked_scheduler_stops_witness :
  step (H := sampleExternal) sampleData sampleSched sampleSchedNext
  ∧ BLOCKED (world sampleSchedNext) = true
  ∧ (∀ s'' : Sched, ¬ step (H := sampleExternal) sampleData sampleSchedNext s'')
  ∧ acc sampleSched `prefix_of` acc sampleSchedNext.
Proof.
  assert (step (H := sampleExternal) sampleData sampleSched sampleSchedNext) as Hstep.
  { apply (step_batch (H := sampleExternal) sampleData sampleSched);
      vm_compute; reflexivity. }
  destruct (blocked_scheduler_stops (H := sampleExternal) sampleData sampleSched
              sampleSchedNext "IOE0900677940" (errorPage "accessviolation" None) Hstep)
    as (Hflag & _ & Hstop & Hprefix & _).
  - vm_compute. apply list_elem_of_here.
  - reflexivity.
  - split; reflexivity.
  - split; [exact Hstep|]. split; [exact Hflag|]. split; [exact Hstop | exact Hprefix].
Defined.

Section BlockedBatch.
Context `{External}.

(** C2 (the code departs from it): the stop after an access violation
    is not always graceful.  Take a batch in which an access-violation
    page is answered and which, further on, holds a failure page with
    the receipt-number label and no error heading.  The flag is set,
    but the [TypeError] raised on the second page leaves the batch
    unfinished: [recursiveHelper] is not entered again and its callback
    is never called, whatever it is.  The records of the earlier
    batches, still held by the global [results], are neither grouped
    nor reported. *)
Theorem blocked_batch_raises (fuel : nat) (data : Data) (s : Sched)
    (before after : list string) (blocked missing : string) (dom dom' : Dom) :
  halted data s = false →
  batchParams data s = before ++ missing :: after →
  blocked ∈ before →
  remote blocked = Reply (Document dom) →
  accessViolation dom →
  Forall (λ p, ∀ d : Dom, remote p = Reply (Document d) → ¬ missingHeading d)
         before →
  remote missing = Reply (Document dom') →
  missingHeading dom' →
  ∃ w' : World,
    (∀ (R : Type) (callback : option ExtractError → list CaseResult → M R),
       recursiveHelper (S fuel) data (current s) (acc s) callback (world s)
       = Thrown (TypeError "Cannot read property 'split' of undefined") w')
    ∧ BLOCKED w' = true
    ∧ results w' = acc s.
Proof.
  intros Hrun Hparams Hin Hremote Hdom Hbefore Hremote' Hdom'.
  set (w1 := {| BLOCKED := BLOCKED (world s); results := acc s;
                console := console (world s) ++ [LogProcessing (current s)];
                posted := posted (world s) |}).
  destruct (mapAll_raises before after missing dom' Hremote' Hdom' Hbefore w1)
    as (w' & Hmap & Hresults & _ & Hblocked).
  exists w'. split; [|split].
  - intros R callback.
    rewrite recursiveHelper_batch by done.
    unfold batch. run_binds. fold w1.
    by rewrite Hparams, Hmap.
  - by eapply Hblocked.
  - done.
Qed.
End BlockedBatch.

Lemma retrieveCaseStatus_raises_witness :
  retrieveCaseStatus (H := sampleExternal) "IOE0900677950"
    (λ err res, mret (err, res)) initialWorld
  = Thrown (TypeError "Cannot read property 'split' of undefined")
      {| BLOCKED := false; results := []; console := [];
         posted := ["IOE0900677950"] |}.
Proof.
  apply (retrieveCaseStatus_raises (H := sampleExternal) "IOE0900677950"
           (errorPage "receipt_number" None) initialWorld).
  - reflexivity.
  - split; [|split]; reflexivity.
Defined.

Lemma blocked_batch_raises_witness :
  ∃ w' : World,
    (∀ (R : Type) (callback : option ExtractError → list CaseResult → M R),
       recursiveHelper (H := sampleExternal) 1 sampleDataWide
         (current sampleSched) (acc sampleSched) callback (world sampleSched)
       = Thrown (TypeError "Cannot read property 'split' of undefined") w')
    ∧ BLOCKED w' = true
    ∧ results w' = acc sampleSched.
Proof.
  apply (blocked_batch_raises (H := sampleExternal) 0 sampleDataWide sampleSched
           (getParams "IOE" 900677940 10) []
           "IOE0900677940" "IOE0900677950"
           (errorPage "accessviolation" None) (errorPage "receipt_number" None)).
  - reflexivity.
  - vm_compute. reflexivity.
  - vm_compute. apply list_elem_of_here.
  - reflexivity.
  - split; reflexivity.
  - apply Forall_forall. intros p Hp d Hd (_ & Hlabel & _).
    vm_compute in Hp.
    repeat (apply elem_of_cons in Hp as [->|Hp]);
      [..|by apply elem_of_nil in Hp];
      vm_compute in Hd;
      first [discriminate Hd
            | injection Hd as <-; vm_compute in Hlabel; discriminate Hlabel].
  - reflexivity.
  - split; [|split]; reflexivity.
Defined.

(** ** The whole run *)

Section RunFacts.
Context `{External}.

(** C9 (as amended): the script validates nothing.  With a count of
    zero or less the guard of [recursiveHelper] stops before the first
    batch: no request is posted, nothing is raised, and the final
    callback receives the empty hash.  (A negative start with a
    positive count is polled like any other range.)  The generator
    [getParams] is a function of its arguments alone. *)
Theorem run_empty_range (options : Options) (fuel : nat) (w : World) :
  o_total options ≤ 0 →
  ∃ w' : World,
    (∀ (R : Type) (callback : option ExtractError → Groups → M R),
       run fuel options callback w = callback None ∅ w')
    ∧ posted w' = posted w
    ∧ BLOCKED w' = BLOCKED w.
Proof.
  intros Htotal. eexists. split.
  - intros R callback. unfold run. run_binds.
    set (w1 := {| BLOCKED := BLOCKED w |}).
    set (data := {| prefix := o_prefix options |}).
    pose (s := {| current := parseInt (o_start options); acc := []; world := w1 |}).
    change (recursiveHelper fuel data (parseInt (o_start options)) []
              (finalProcessing callback) w1)
      with (recursiveHelper fuel data (current s) (acc s)
              (finalProcessing callback) (world s)).
    rewrite recursiveHelper_halted.
    + unfold finalProcessing. run_binds. reflexivity.
    + unfold halted, parseInt. simpl.
      apply orb_true_iff. left. unfold parseInt. lia.
  - done.
Qed.
End RunFacts.

Lemma run_empty_range_witness :
  ∃ w' : World,
    (∀ (R : Type) (callback : option ExtractError → Groups → M R),
       run (H := sampleExternal) 0
         {| o_total := 0; o_prefix := "IOE"; o_start := 900677923; o_limit := 10 |}
         callback initialWorld
       = callback None ∅ w')
    ∧ posted w' = posted initialWorld
    ∧ BLOCKED w' = BLOCKED initialWorld.
Proof.
  apply (run_empty_range (H := sampleExternal)
           {| o_total := 0; o_prefix := "IOE"; o_start := 900677923; o_limit := 10 |}
           0 initialWorld).
  simpl. lia.
Defined.

(** C9 as stated fails: with start -5 and count 1 the run raises no
    error; it posts the case number built from -5 and completes. *)
Lemma run_negative_start_counterexample :
  o_start {| o_total := 1; o_prefix := "IOE"; o_start := -5; o_limit := 1 |} < 0
  ∧ ∃ (hash : Groups) (w' : World),
      run (H := sampleExternal) 1
        {| o_total := 1; o_prefix := "IOE"; o_start := -5; o_limit := 1 |}
        (λ err hash, mret (err, hash)) initialWorld
      = Returned (None, hash) w'
      ∧ posted w' = ["IOE00000000-5"].
Proof.
  split; [simpl; lia|].
  pose (o := sampleRun 1 {| o_total := 1; o_prefix := "IOE"; o_start := -5; o_limit := 1 |}).
  exists (finalHash o), (finalWorld o).
  split; vm_compute; reflexivity.
Qed.

(** C7 (the code departs from it): every batch is generated with the
    full [intervalSize], whatever is left of the range.  With the
    default count 1 and batch width 10 the run looks up ten identifiers,
    900677923 to 900677932, not one. *)
Theorem run_overshoots_total :
  ∃ (hash : Groups) (w' : World),
    run (H := sampleExternal) 1
      {| o_total := 1; o_prefix := "IOE"; o_start := 900677923; o_limit := 10 |}
      (λ err hash, mret (err, hash)) initialWorld
    = Returned (None, hash) w'
    ∧ posted w' = getParams "IOE" 900677923 10
    ∧ length (posted w') = 10%nat.
Proof.
  pose (o := sampleRun 1
    {| o_total := 1; o_prefix := "IOE"; o_start := 900677923; o_limit := 10 |}).
  exists (finalHash o), (finalWorld o).
  split; [|split]; vm_compute; reflexivity.
Qed.

(** ** Whole batches only *)

Lemma getParams_app (prefix' : string) (start a b : Z) :
  0 ≤ a → 0 ≤ b →
  getParams prefix' start (a + b)
  = getParams prefix' start a ++ getParams prefix' (start + a) b.
Proof.
  intros Ha Hb. unfold getParams, times, parseInt.
  rewrite seqZ_app, fmap_app by done. f_equal.
  replace (seqZ (0 + a) b) with (Z.add a <$> seqZ 0 b)
    by (rewrite fmap_add_seqZ; f_equal; lia).
  rewrite <- list_fmap_compose.
  apply list_fmap_ext. intros _ i _. simpl. do 2 f_equal. lia.
Qed.

Section BatchFacts.
Context `{External}.

Lemma batch_terminates (data : Data) (s : Sched) :
  terminates (batch data s (world s)).
Proof.
  unfold batch. run_binds.
  match goal with
  | |- context [mapAll ?f ?l ?w] =>
      pose proof (mapAll_effect l w) as Heff; destruct (mapAll f l w)
  end; done.
Qed.

(** Given enough fuel, [recursiveHelper] either meets a lookup that
    raises or reaches its callback after [n] whole batches; when it
    was not stopped by the flag, [n] is the least number of batches
    of width [intervalSize] that covers the range. *)
Lemma recursiveHelper_batches (data : Data) (fuel : nat) :
  1 ≤ intervalSize data →
  ∀ s : Sched,
    end_ data - current s ≤ Z.of_nat fuel * intervalSize data →
    (∃ e w', ∀ (R : Type) (callback : option ExtractError → list CaseResult → M R),
        recursiveHelper fuel data (current s) (acc s) callback (world s)
        = Thrown e w')
    ∨ (∃ (n : nat) (acc' : list CaseResult) (w' : World),
        (∀ (R : Type) (callback : option ExtractError → list CaseResult → M R),
           recursiveHelper fuel data (current s) (acc s) callback (world s)
           = callback None acc' w')
        ∧ posted w'
          = posted (world s)
            ++ getParams (prefix data) (current s) (Z.of_nat n * intervalSize data)
        ∧ Z.of_nat (length acc')
          = Z.of_nat (length (acc s)) + Z.of_nat n * intervalSize data
        ∧ (BLOCKED w' = false →
             end_ data ≤ current s + Z.of_nat n * intervalSize data
             ∧ (n = 0%nat
                ∨ current s + (Z.of_nat n - 1) * intervalSize data < end_ data))).
Proof.
  intros Hpos. induction fuel as [|fuel IH]; intros s Hfuel.
  - right. exists 0%nat, (acc s), (stopped s).
    assert (halted data s = true) as Hhalt.
    { unfold halted. apply orb_true_iff. left. lia. }
    split; [intros R callback; by apply recursiveHelper_halted|].
    split; [simpl; by rewrite app_nil_r|]. split; [lia|].
    intros _. split; [lia | by left].
  - destruct (halted data s) eqn:Hhalt.
    + right. exists 0%nat, (acc s), (stopped s).
      split; [intros R callback; by apply recursiveHelper_halted|].
      split; [simpl; by rewrite app_nil_r|]. split; [lia|].
      intros Hflag. unfold halted in Hhalt. simpl in Hflag.
      rewrite Hflag, orb_false_r in Hhalt.
      split; [lia | by left].
    + pose proof (batch_terminates data s) as Hterm.
      destruct (batch data s (world s)) as [[current' acc'] w1|e w1|] eqn:Hbatch;
        [| |done].
      * destruct (batch_effect data s current' acc' w1 Hbatch)
          as (Hcur & (rs & Hacc & Hlen) & Hposted & _ & _).
        pose (s1 := {| current := current'; acc := acc'; world := w1 |}).
        assert (∀ (R : Type) (callback : option ExtractError → list CaseResult → M R),
          recursiveHelper (S fuel) data (current s) (acc s) callback (world s)
          = recursiveHelper fuel data (current s1) (acc s1) callback (world s1))
          as Hunfold.
        { intros R callback. rewrite recursiveHelper_batch by done.
          by rewrite bind_unfold, Hbatch. }
        assert (length (batchParams data s) = Z.to_nat (intervalSize data)) as Hparams
          by apply getParams_length.
        destruct (IH s1) as [(e & w' & Hthrow)|(n & acc'' & w' & Hcb & Hp & Hl & Hn)].
        { simpl. lia. }
        { left. exists e, w'. intros R callback. by rewrite Hunfold. }
        right. exists (S n), acc'', w'.
        split; [intros R callback; by rewrite Hunfold|].
        simpl in Hp, Hl, Hn.
        split; [|split].
        -- rewrite Hp, Hposted, <- app_assoc. f_equal.
           unfold batchParams. rewrite Hcur.
           replace (Z.of_nat (S n) * intervalSize data)
             with (intervalSize data + Z.of_nat n * intervalSize data) by lia.
           rewrite getParams_app by lia. done.
        -- rewrite Hl, Hacc, length_app, Hlen, Hparams. lia.
        -- intros Hflag. destruct (Hn Hflag) as [Hend Hleast].
           split; [lia|]. right.
           destruct Hleast as [->|Hleast]; [|lia].
           unfold halted in Hhalt. apply orb_false_iff in Hhalt as [Hc _]. lia.
      * left. exists e, w1. intros R callback.
        rewrite recursiveHelper_batch by done.
        by rewrite bind_unfold, Hbatch.
Qed.

(** The run as a whole: with a batch width of at least one and enough
    fuel, a run that meets no raising lookup hands its report to the
    callback after posting [n] whole batches from [start] on; unless
    the flag stopped it, [n] batches are the fewest that cover
    [count], so [n * width] identifiers are looked up, more than
    [count] whenever the width does not divide it. *)
Lemma run_posts_whole_batches (options : Options) (fuel : nat) (w : World) :
  1 ≤ o_limit options →
  o_total options ≤ Z.of_nat fuel * o_limit options →
  (∃ e w', ∀ (R : Type) (callback : option ExtractError → Groups → M R),
      run fuel options callback w = Thrown e w')
  ∨ (∃ (n : nat) (hash : Groups) (w' : World),
      (∀ (R : Type) (callback : option ExtractError → Groups → M R),
         run fuel options callback w = callback None hash w')
      ∧ posted w'
        = posted w
          ++ getParams (o_prefix options) (o_start options)
               (Z.of_nat n * o_limit options)
      ∧ (BLOCKED w' = false →
           o_total options ≤ Z.of_nat n * o_limit options
           ∧ (n = 0%nat ∨ (Z.of_nat n - 1) * o_limit options < o_total options))).
Proof.
  intros Hlimit Hfuel.
  set (data := {| prefix := o_prefix options;
                  intervalSize := parseInt (o_limit options);
                  end_ := parseInt (o_start options) + parseInt (o_total options) |}).
  set (w1 := {| BLOCKED := BLOCKED w; results := results w;
                console := console w ++ [LogStarting]; posted := posted w |}).
  pose (s := {| current := parseInt (o_start options); acc := []; world := w1 |}).
  assert (∀ (R : Type) (callback : option ExtractError → Groups → M R),
    run fuel options callback w
    = recursiveHelper fuel data (current s) (acc s)
        (finalProcessing callback) (world s)) as Hrun.
  { intros R callback. unfold run. by run_binds. }
  destruct (recursiveHelper_batches data fuel Hlimit s)
    as [(e & w' & Hthrow)|(n & acc' & w' & Hcb & Hp & Hl & Hn)].
  { simpl. unfold parseInt. lia. }
  - left. exists e, w'. intros R callback. by rewrite Hrun.
  - right.
    assert (∃ hash w'', processFinalResults acc'
              {| BLOCKED := BLOCKED w'; results := results w';
                 console := (console w' ++ [LogCompleted (length acc')])
                            ++ [LogStartingFinal];
                 posted := posted w' |} = Returned hash w''
            ∧ posted w'' = posted w' ∧ BLOCKED w'' = BLOCKED w')
      as (hash & w'' & Hfinal & Hp'' & Hb'').
    { unfold processFinalResults. case_bool_decide; by eexists _, _. }
    eexists n, hash, _. split; [|split].
    + intros R callback. rewrite Hrun, Hcb.
      unfold finalProcessing. run_binds. rewrite Hfinal. run_binds. reflexivity.
    + simpl. rewrite Hp'', Hp. done.
    + simpl. rewrite Hb''. intros Hflag.
      destruct (Hn Hflag) as [Hend Hleast]. simpl in Hend, Hleast.
      unfold parseInt in *. split; [lia|].
      destruct Hleast as [->|Hleast]; [by left | right; lia].
Qed.
End BatchFacts.

(* ===================================================================== *)
(** * Part III: further properties of the script                          *)
(* ===================================================================== *)

(** ** [pad] *)

Lemma fixedDigits_zero_chars (k : nat) (c : ascii) :
  c ∈ String.list_ascii_of_string (fixedDigits k 0) → c = "0"%char.
Proof.
  induction k as [|k IH]; [by intros ?%elem_of_nil|].
  cbn [fixedDigits String.list_ascii_of_string].
  rewrite Zdiv_0_l, !Zmod_0_l.
  intros [->|Hin]%elem_of_cons; [done | by apply IH].
Qed.

(** X1: a non-negative safe integer that fits in [size] digits is
    rendered on exactly [size] characters, its last [size] decimal
    digits with leading zeros. *)
Theorem pad_fits (num : Z) (size : nat) :
  (1 ≤ size)%nat → 0 ≤ num < 10 ^ Z.of_nat size → num ≤ MAX_SAFE_INTEGER →
  pad num size = fixedDigits size num
  ∧ String.length (pad num size) = size.
Proof.
  intros Hsize Hnum _.
  rewrite pad_fixedDigits by done.
  split; [done | apply fixedDigits_length].
Qed.

Lemma pad_fits_witness :
  pad 900677923 10 = fixedDigits 10 900677923
  ∧ String.length (pad 900677923 10) = 10%nat.
Proof.
  apply (pad_fits 900677923 10); [lia | lia | unfold MAX_SAFE_INTEGER; lia].
Defined.

(** X2: [pad] only ever puts zeros in front: for a safe integer,
    negative or not, the result is the number's own rendering preceded
    by [size - length] characters "0" (none when the rendering is
    already that wide), so it is never shorter than [size] and never
    loses a digit or a sign. *)
Theorem pad_prepends_zeros (num : Z) (size : nat) :
  isSafeInteger num →
  ∃ z : string,
    pad num size = z +:+ numberToString num
    ∧ String.length z = (size - String.length (numberToString num))%nat
    ∧ (∀ c : ascii, c ∈ String.list_ascii_of_string z → c = "0"%char)
    ∧ (size ≤ String.length (pad num size))%nat.
Proof.
  intros _.
  exists (fixedDigits (size - String.length (numberToString num)) 0).
  unfold pad. rewrite padLoop_spec by lia.
  split; [done|]. split; [apply fixedDigits_length|].
  split; [apply fixedDigits_zero_chars|].
  rewrite string_app_length, fixedDigits_length. lia.
Qed.

Lemma pad_prepends_zeros_witness :
  ∃ z : string,
    pad (-5) 10 = z +:+ numberToString (-5)
    ∧ String.length z = (10 - String.length (numberToString (-5)))%nat
    ∧ (∀ c : ascii, c ∈ String.list_ascii_of_string z → c = "0"%char)
    ∧ (10 ≤ String.length (pad (-5) 10))%nat.
Proof.
  apply (pad_prepends_zeros (-5) 10).
  unfold isSafeInteger, MAX_SAFE_INTEGER. lia.
Defined.

(** ** Reading the digits back *)

Lemma digitValue_digitChar (d : Z) :
  0 ≤ d < 10 → digitValue (digitChar d) = Some d.
Proof.
  intros Hd.
  assert (d = 0 ∨ d = 1 ∨ d = 2 ∨ d = 3 ∨ d = 4 ∨ d = 5 ∨ d = 6 ∨ d = 7
          ∨ d = 8 ∨ d = 9) as Hcases by lia.
  repeat (destruct Hcases as [->|Hcases]; [reflexivity|]). by subst.
Qed.

Lemma digitsValue_app (a b : string) (acc : Z) :
  digitsValue (a +:+ b) acc
  = match digitsValue a acc with
    | Some acc' => digitsValue b acc'
    | None => None
    end.
Proof.
  revert acc. induction a as [|c a IH]; intros acc; [done|].
  rewrite string_app_cons. simpl.
  destruct (digitValue c) as [d|]; simpl; [apply IH | done].
Qed.

Lemma digitsValue_fixedDigits (w : nat) :
  ∀ n acc : Z, 0 ≤ n →
    digitsValue (fixedDigits w n) acc
    = Some (acc * 10 ^ Z.of_nat w + n mod 10 ^ Z.of_nat w).
Proof.
  induction w as [|w IH]; intros n acc Hn.
  - simpl. rewrite Z.mod_1_r. f_equal. lia.
  - cbn [fixedDigits digitsValue].
    pose proof (pow10_pos w) as Hp.
    rewrite digitValue_digitChar by (apply Z.mod_pos_bound; lia).
    simpl. rewrite IH by (apply Z.mod_pos_bound; lia).
    f_equal. rewrite pow10_S, Z.mod_mod by lia.
    rewrite (Z.mul_comm 10 (10 ^ Z.of_nat w)).
    rewrite (Z.rem_mul_r n (10 ^ Z.of_nat w) 10) by lia. lia.
Qed.

Lemma digitsValue_numberToString (n : Z) :
  0 ≤ n → digitsValue (numberToString n) 0 = Some n.
Proof.
  intros Hn. unfold numberToString.
  destruct (Z.ltb_spec n 0) as [?|_]; [lia|].
  destruct (digitsLoop_spec (digitsFuel n) n EmptyString) as (s & Hs & _ & Hfix).
  { unfold digitsFuel; lia. }
  { split; [lia | by apply digitsFuel_enough]. }
  rewrite Hs, string_app_nil_r.
  destruct (Hfix (digitsFuel n)) as [Hle Heq].
  { unfold digitsFuel; lia. }
  { by apply digitsFuel_enough. }
  pose proof (digitsValue_fixedDigits (digitsFuel n) n 0 Hn) as Hval.
  rewrite <- Heq, digitsValue_app in Hval.
  rewrite digitsValue_fixedDigits in Hval by lia.
  rewrite Zmod_0_l, Z.mul_0_l, Z.add_0_l in Hval.
  rewrite Hval. f_equal. rewrite Z.mul_0_l, Z.add_0_l.
  apply Z.mod_small. split; [lia | by apply digitsFuel_enough].
Qed.

Lemma digitsValue_pad (num : Z) (size : nat) :
  0 ≤ num → digitsValue (pad num size) 0 = Some num.
Proof.
  intros Hnum. unfold pad. rewrite padLoop_spec by lia.
  rewrite digitsValue_app, digitsValue_fixedDigits by lia.
  rewrite Zmod_0_l, Z.mul_0_l, Z.add_0_l.
  by apply digitsValue_numberToString.
Qed.

(** X3: reading the decimal digits of [pad num size] back gives [num],
    for every non-negative safe integer [num] and every width, also
    when the number is wider than [size]; so [pad] maps different
    non-negative safe integers to different strings. *)
Theorem pad_reads_back (num : Z) (size : nat) :
  0 ≤ num ≤ MAX_SAFE_INTEGER →
  digitsValue (pad num size) 0 = Some num
  ∧ ∀ other : Z, 0 ≤ other ≤ MAX_SAFE_INTEGER →
      pad other size = pad num size → other = num.
Proof.
  intros [Hnum _]. split; [by apply digitsValue_pad|].
  intros other [Hother _] Heq.
  pose proof (digitsValue_pad other size Hother) as Hval.
  rewrite Heq, digitsValue_pad in Hval by done. congruence.
Qed.

Lemma pad_reads_back_witness :
  digitsValue (pad 10000000000 10) 0 = Some 10000000000
  ∧ ∀ other : Z, 0 ≤ other ≤ MAX_SAFE_INTEGER →
      pad other 10 = pad 10000000000 10 → other = 10000000000.
Proof.
  apply (pad_reads_back 10000000000 10).
  unfold MAX_SAFE_INTEGER. lia.
Defined.

(** ** [getParams] *)

(** X4: for a non-negative start and a range of safe integers the
    identifiers of [getParams] are pairwise distinct, for every prefix,
    also beyond the ten-digit range where their widths differ. *)
Theorem getParams_distinct (prefix' : string) (start number : Z) :
  0 ≤ start →
  number ≤ MAX_ARRAY_LENGTH →
  start + number ≤ MAX_SAFE_INTEGER →
  NoDup (getParams prefix' start number).
Proof.
  intros Hstart _ _. unfold getParams, times, parseInt.
  apply NoDup_fmap_2_strong; [|apply NoDup_seqZ].
  intros i j Hi Hj Heq.
  apply elem_of_seqZ in Hi, Hj.
  apply (inj (String.app prefix')) in Heq.
  pose proof (digitsValue_pad (start + i) Const.caseNumLength ltac:(lia)) as Hvi.
  rewrite Heq, digitsValue_pad in Hvi by lia.
  injection Hvi as Hvi. lia.
Qed.

Lemma getParams_distinct_witness :
  NoDup (getParams "IOE" 9999999999 3).
Proof.
  apply (getParams_distinct "IOE" 9999999999 3);
    unfold MAX_ARRAY_LENGTH, MAX_SAFE_INTEGER; lia.
Defined.

(** X5: within the safe integers, the identifiers of a range are those
    of its first part followed by those of the rest:
    [getParams p s (a + b)] is [getParams p s a] followed by
    [getParams p (s + a) b].  This is how the batches of
    [recursiveHelper] line up into one range. *)
Theorem getParams_consecutive (prefix' : string) (start a b : Z) :
  0 ≤ a → 0 ≤ b →
  a + b ≤ MAX_ARRAY_LENGTH →
  isSafeInteger start →
  start + a + b ≤ MAX_SAFE_INTEGER →
  getParams prefix' start (a + b)
  = getParams prefix' start a ++ getParams prefix' (start + a) b.
Proof. intros Ha Hb _ _ _. by apply getParams_app. Qed.

Lemma getParams_consecutive_witness :
  getParams "IOE" 900677923 (2 + 3)
  = getParams "IOE" 900677923 2 ++ getParams "IOE" (900677923 + 2) 3.
Proof.
  apply (getParams_consecutive "IOE" 900677923 2 3);
    unfold isSafeInteger, MAX_ARRAY_LENGTH, MAX_SAFE_INTEGER; lia.
Defined.

(** ** [getDate] *)

Lemma split_app_sep (sep : ascii) (a rest : string) :
  (∀ c : ascii, c ∈ String.list_ascii_of_string a → c ≠ sep) →
  split sep (a +:+ String sep rest) = a :: split sep rest.
Proof.
  induction a as [|c a IH]; intros Ha.
  - rewrite string_app_nil_l. simpl. by rewrite Ascii.eqb_refl.
  - rewrite string_app_cons. simpl.
    destruct (Ascii.eqb_spec c sep) as [->|Hne].
    + exfalso. apply (Ha sep); [|done]. simpl. apply list_elem_of_here.
    + rewrite IH; [done|].
      intros c' Hc'. apply Ha. simpl. by apply list_elem_of_further.
Qed.

Lemma split_nonempty (sep : ascii) (s : string) : split sep s ≠ [].
Proof.
  induction s as [|c s IH]; simpl; [done|].
  destruct (Ascii.eqb c sep); [done|]. by destruct (split sep s).
Qed.

(** X6: the date of a record is read from the first two comma-separated
    fields of the body text alone: they are joined with ", ", the first
    three characters are dropped, and the result is handed to moment.
    Whatever follows the second comma has no influence. *)
Theorem getDate_first_two_fields `{External} (a b rest : string) :
  (∀ c : ascii, c ∈ String.list_ascii_of_string a → c ≠ ","%char) →
  (∀ c : ascii, c ∈ String.list_ascii_of_string b → c ≠ ","%char) →
  d_date (getDate (Some (a +:+ "," +:+ b +:+ "," +:+ rest)))
  = momentParse (sliceFrom 3 (a +:+ ", " +:+ b)) "MMM DD  YYYY"
  ∧ ∀ rest' : string,
      getDate (Some (a +:+ "," +:+ b +:+ "," +:+ rest'))
      = getDate (Some (a +:+ "," +:+ b +:+ "," +:+ rest)).
Proof.
  intros Ha Hb.
  assert (∀ r : string,
    getDate (Some (a +:+ "," +:+ b +:+ "," +:+ r))
    = {| d_date := momentParse (sliceFrom 3 (a +:+ ", " +:+ b)) "MMM DD  YYYY";
         d_string := momentFormat
           (momentParse (sliceFrom 3 (a +:+ ", " +:+ b)) "MMM DD  YYYY")
           "dddd, MMMM Do YYYY" |}) as Hdate.
  { intros r. unfold getDate. cbv zeta.
    change ("," +:+ b +:+ "," +:+ r) with (String ","%char (b +:+ String ","%char r)).
    rewrite split_app_sep by done. rewrite split_app_sep by done.
    pose proof (split_nonempty "," r) as Hne.
    destruct (split "," r); done. }
  split; [by rewrite Hdate|].
  intros rest'. by rewrite !Hdate.
Qed.

Lemma getDate_first_two_fields_witness :
  d_date (getDate (H := sampleExternal)
            (Some ("On August 24" +:+ "," +:+ " 2016" +:+ ","
                   +:+ " we approved your Form I-765.")))
  = momentParse (External := sampleExternal)
      (sliceFrom 3 ("On August 24" +:+ ", " +:+ " 2016")) "MMM DD  YYYY"
  ∧ ∀ rest' : string,
      getDate (H := sampleExternal)
        (Some ("On August 24" +:+ "," +:+ " 2016" +:+ "," +:+ rest'))
      = getDate (H := sampleExternal)
          (Some ("On August 24" +:+ "," +:+ " 2016" +:+ ","
                 +:+ " we approved your Form I-765.")).
Proof.
  apply (getDate_first_two_fields (H := sampleExternal)
           "On August 24" " 2016" " we approved your Form I-765.").
  - apply Forall_forall. repeat (constructor; [done|]). constructor.
  - apply Forall_forall. repeat (constructor; [done|]). constructor.
Defined.

(** ** The classifier and the extraction *)

Section ExtractionFacts.
Context `{External}.

(** X7: every heading that is a key of [titleToType] is given its type
    without any console output, whatever characters it contains; a
    heading without path syntax that is not a key is given "UNKNOWN"
    and named in exactly one console line. *)
Theorem getType_classifies (key : string) (w : World) :
  (∀ ty : string, titleToType !! key = Some ty →
     getType key w = Returned (Some ty) w)
  ∧ (plainKey key → titleToType !! key = None →
     getType key w
     = Returned (Some "UNKNOWN")
         {| BLOCKED := BLOCKED w; results := results w;
            console := console w ++ [LogUnknownKey key];
            posted := posted w |}).
Proof.
  split.
  - intros ty Hlook. unfold getType, has, castPath.
    rewrite bool_decide_eq_true_2 by eauto. by rewrite Hlook.
  - intros Hplain Hlook. by rewrite getType_unmapped.
Qed.

(** X8: [getErrorType] ends in exactly one of two ways.  It raises when
    the first label is the receipt-number label and the error heading is
    missing, and only then; otherwise it returns "BLOCKED", "NOT_FOUND"
    or "UNKNOWN", printing one console line in the "UNKNOWN" case and
    nothing in the other two. *)
Theorem getErrorType_ends (dom : Dom) (w : World) :
  (labelFor (select dom "label") = Some "receipt_number"
   ∧ headingRaw (select dom "#formErrorMessages h4") = None
   ∧ getErrorType dom w
     = Thrown (TypeError "Cannot read property 'split' of undefined") w)
  ∨ (¬ (labelFor (select dom "label") = Some "receipt_number"
        ∧ headingRaw (select dom "#formErrorMessages h4") = None)
     ∧ ((∃ kind : string, kind ∈ ["BLOCKED"; "NOT_FOUND"]
           ∧ getErrorType dom w = Returned kind w)
        ∨ getErrorType dom w
          = Returned "UNKNOWN"
              {| BLOCKED := BLOCKED w; results := results w;
                 console := console w
                            ++ [LogUnknownErrorType (select dom "label")];
                 posted := posted w |})).
Proof.
  unfold getErrorType. cbv zeta.
  destruct (decide (labelFor (select dom "label") = Some "accessviolation"))
    as [Hav|Hav].
  - right. split; [intros [Hr _]; congruence|].
    left. exists "BLOCKED". split; [apply list_elem_of_here|].
    by rewrite bool_decide_eq_true_2.
  - rewrite bool_decide_eq_false_2 by done.
    destruct (decide (labelFor (select dom "label") = Some "receipt_number"))
      as [Hrn|Hrn].
    + rewrite bool_decide_eq_true_2 by done.
      destruct (headingRaw (select dom "#formErrorMessages h4")) as [raw'|] eqn:Hraw.
      * right. split; [by intros [_ ?]|].
        case_bool_decide.
        -- left. exists "NOT_FOUND".
           split; [apply list_elem_of_further, list_elem_of_here | done].
        -- by right.
      * by left.
    + rewrite bool_decide_eq_false_2 by done.
      right. split; [by intros [? _]|]. by right.
Qed.

Lemma extraction_shape (body : Page) (w w' : World)
    (err : option ExtractError) (res : option Info) :
  extraction body w = Returned (err, res) w' →
  err = None ↔ is_Some res.
Proof.
  unfold extraction, extractInfo.
  destruct body as [e|dom]; [intros [= <- <- _]; split; [done | by intros [? ?]]|].
  cbv zeta.
  repeat match goal with
  | |- context [extract dom ?sel] =>
      let x := fresh "field" in
      generalize (extract dom sel); intros x
  end.
  assert (∀ w0, (ty ← getErrorType dom;
                 mret (Some (InfoError ty "info extraction failed"), @None Info)) w0
                = Returned (err, res) w' → err = None ↔ is_Some res) as Hsalvage.
  { intros w0. rewrite bind_unfold.
    destruct (getErrorType dom w0); [|done..].
    intros [= <- <- _]. split; [done | by intros [? ?]]. }
  destruct field as [text|], field0 as [title|]; try apply Hsalvage.
  destruct (negb _ || negb _); [apply Hsalvage|].
  rewrite bind_unfold.
  match goal with
  | |- context [infoParser ?a ?b w] =>
      destruct (infoParser_effect a b w) as (info & w1 & -> & _)
  end.
  intros [= <- <- _]. split; [by eauto | done].
Qed.

(** X9: [extractInfo] either raises (inside [getErrorType]) or hands
    exactly one outcome to its callback, with node-style arguments: an
    error and no result, or a result and no error.  Apart from console
    lines it changes nothing. *)
Theorem extractInfo_one_outcome (body : Page) (w : World) :
  (∃ (e : Exception) (w' : World),
     (∀ (R : Type) (callback : option ExtractError → option Info → M R),
        extractInfo body callback w = Thrown e w')
     ∧ sameGlobals w w')
  ∨ (∃ (err : option ExtractError) (res : option Info) (w' : World),
       (∀ (R : Type) (callback : option ExtractError → option Info → M R),
          extractInfo body callback w = callback err res w')
       ∧ (err = None ↔ is_Some res)
       ∧ sameGlobals w w').
Proof.
  destruct (extraction_effect body w) as [Hterm Hends].
  destruct (extraction body w) as [[err res] w'|e w'|] eqn:Hext; [| |done].
  - right. exists err, res, w'. split; [|split].
    + intros R callback. by rewrite extractInfo_callback, bind_unfold, Hext.
    + by eapply extraction_shape.
    + exact Hends.
  - left. exists e, w'. split; [|exact Hends].
    intros R callback. by rewrite extractInfo_callback, bind_unfold, Hext.
Qed.
End ExtractionFacts.

(** ** One lookup *)

Section LookupFacts.
Context `{External}.

Lemma lookup_record (caseNum' : string) (w w' : World)
    (err : option ExtractError) (res : CaseResult) :
  lookup caseNum' w = Returned (err, res) w' →
  caseNum res = Some caseNum' ∨ res = nexistRecord.
Proof.
  unfold lookup, retrieveCaseStatus. run_binds.
  destruct (remote caseNum') as [e|body]; [intros [= _ <- _]; by left|].
  rewrite extractInfo_callback, bind_unfold.
  destruct (extraction body _) as [[err1 res1] w1|e w1|]; [|done|done].
  cbn [fst snd]. destruct err1 as [e|].
  - repeat case_bool_decide; run_binds; intros [= _ <- _]; by eauto.
  - intros [= _ <- _]. left. by destruct res1.
Qed.

(** X10: a lookup started through [retrieveCaseStatus] either raises or
    is exactly one call of its callback with a null error.  In both
    cases the case number has been posted once, [results] is untouched
    and a set [BLOCKED] flag stays set; the record handed over carries
    the queried case number unless it is the bare "NEXIST" record. *)
Theorem retrieveCaseStatus_once_or_raises (caseNum' : string) (w : World) :
  (∃ (e : Exception) (w' : World),
     (∀ (R : Type) (callback : option ExtractError → CaseResult → M R),
        retrieveCaseStatus caseNum' callback w = Thrown e w')
     ∧ lookedUp caseNum' w w')
  ∨ (∃ (res : CaseResult) (w' : World),
       (∀ (R : Type) (callback : option ExtractError → CaseResult → M R),
          retrieveCaseStatus caseNum' callback w = callback None res w')
       ∧ lookedUp caseNum' w w'
       ∧ (caseNum res = Some caseNum' ∨ res = nexistRecord)).
Proof.
  pose proof (lookup_effect caseNum' w) as Heff.
  destruct (lookup caseNum' w) as [[err res] w'|e w'|] eqn:Hlook; [| |done].
  - destruct Heff as [Herr Hw']. simpl in Herr. subst err.
    right. exists res, w'. split; [|split; [done|]].
    + intros R callback. by rewrite retrieveCaseStatus_callback, bind_unfold, Hlook.
    + by eapply lookup_record.
  - left. exists e, w'. split; [|done].
    intros R callback. by rewrite retrieveCaseStatus_callback, bind_unfold, Hlook.
Qed.

(** X11: a lookup raises exactly when the remote answer is a document on
    which the extraction of heading and text fails, whose first label
    is the receipt-number label and which has no error heading.  Every
    other answer, and every transport error, ends in the callback. *)
Theorem lookup_raises_iff (caseNum' : string) (w : World) :
  (∃ (e : Exception) (w' : World), lookup caseNum' w = Thrown e w')
  ↔ ∃ dom : Dom,
      remote caseNum' = Reply (Document dom)
      ∧ extractionFails dom
      ∧ labelFor (select dom "label") = Some "receipt_number"
      ∧ headingRaw (select dom "#formErrorMessages h4") = None.
Proof.
  destruct (remote caseNum') as [err|[err|dom]] eqn:Hremote.
  - split; [|by intros (? & ? & _)].
    intros (e & w' & Hthrown). exfalso.
    unfold lookup, retrieveCaseStatus in Hthrown. run_binds.
    rewrite bind_unfold, Hremote in Hthrown. done.
  - rewrite (lookup_raises_with_extraction _ _ _ Hremote).
    split; [by intros (? & ? & ?) | by intros (? & ? & _)].
  - rewrite (lookup_raises_with_extraction _ _ _ Hremote).
    assert ((request_post caseNum';; extraction (Document dom)) w
            = extraction (Document dom)
                {| BLOCKED := BLOCKED w; results := results w;
                   console := console w; posted := posted w ++ [caseNum'] |}) as ->
      by done.
    rewrite extraction_raises_iff, getErrorType_raises_iff.
    split.
    + intros (Hf & Hl & Hh). by exists dom.
    + intros (d & [= <-] & Hf & Hl & Hh). done.
Qed.
End LookupFacts.

(** ** Batches and the [results] global *)

Section BatchRecords.
Context `{External}.

Lemma mapAll_records (params : list string) :
  ∀ (w w' : World) (err : option ExtractError) (rs : list CaseResult),
    mapAll (λ R, retrieveCaseStatus (R := R)) params w = Returned (err, rs) w' →
    Forall2 (λ p r, caseNum r = Some p ∨ r = nexistRecord) params rs.
Proof.
  induction params as [|p params IH]; intros w w' err rs.
  - intros [= _ <- _]. constructor.
  - cbn [mapAll]. rewrite bind_unfold.
    pose proof (lookup_effect p w) as Heff.
    pose proof (lookup_record p w) as Hrec.
    unfold lookup in Heff, Hrec.
    destruct (retrieveCaseStatus p _ w) as [[err1 r] w1|e w1|]; [|done|done].
    destruct Heff as [Herr _]. simpl in Herr. subst err1.
    cbn [fst snd]. rewrite bind_unfold.
    specialize (IH w1).
    destruct (mapAll _ params w1) as [[err2 rs2] w2|e w2|]; [|done|done].
    intros [= _ <- _]. constructor; [by eapply Hrec | by eapply IH].
Qed.

(** X12: [async.map] over [retrieveCaseStatus], as [recursiveHelper]
    calls it: unless a lookup raises, the final callback runs exactly
    once, without error, with one record per identifier in the order of
    the identifiers (each carrying its identifier, or the bare "NEXIST"
    record); exactly the identifiers of the batch have been posted, in
    order, and [results] has not been touched. *)
Theorem async_map_lookups (params : list string) (w : World) :
  (∃ (e : Exception) (w' : World),
     ∀ (R : Type) (callback : option ExtractError → list CaseResult → M R),
       async_map params (λ R, retrieveCaseStatus (R := R)) callback w = Thrown e w')
  ∨ (∃ (rs : list CaseResult) (w' : World),
       (∀ (R : Type) (callback : option ExtractError → list CaseResult → M R),
          async_map params (λ R, retrieveCaseStatus (R := R)) callback w
          = callback None rs w')
       ∧ Forall2 (λ p r, caseNum r = Some p ∨ r = nexistRecord) params rs
       ∧ posted w' = posted w ++ params
       ∧ results w' = results w
       ∧ (BLOCKED w = true → BLOCKED w' = true)).
Proof.
  unfold async_map.
  pose proof (mapAll_effect params w) as Heff.
  pose proof (mapAll_records params w) as Hrec.
  destruct (mapAll _ params w) as [[err rs] w'|e w'|] eqn:Hmap; [| |done].
  - destruct Heff as (Herr & _ & Hposted & Hresults & Hflag).
    simpl in Herr. subst err.
    right. exists rs, w'. split; [|split; [by eapply Hrec | done]].
    intros R callback. by rewrite bind_unfold, Hmap.
  - left. exists e, w'. intros R callback. by rewrite bind_unfold, Hmap.
Qed.


End BatchRecords.


(** ** The run *)

Section ReportFacts.
Context `{External}.


Lemma withMetadata_metadata (groups : Buckets) (d : string) (day : gmap string Bucket) :
  groups !! d = Some day →
  withMetadata groups !! d ≫= (.!! "_metadata")
  = Some (DayMetadata
            {| md_dateString := d;
               md_unix := unix (momentParse d "dddd, MMMM Do YYYY") |}).
Proof.
  intros Hday. unfold withMetadata.
  rewrite map_lookup_imap, Hday. simpl. unfold extendMetadata.
  by rewrite lookup_insert_eq.
Qed.


End ReportFacts.


(** ** More on [group] *)

Section GroupFacts.
Context `{External}.

(** X15: a bucket of [group res], found under a date label and a type,
    holds exactly the input records with that label and type, in input
    order; its [total] is their number, its [date] and [type] are its
    two keys, and its [unix] is the timestamp of the first of them
    (later members do not change it).  No bucket is empty. *)
Theorem group_bucket_contents (res : list CaseResult) (d t : string) (b : Bucket) :
  getBucket (group res) d t = Some b →
  items b = members res d t
  ∧ total b = Z.of_nat (length (items b))
  ∧ b_date b = d ∧ b_type b = t
  ∧ ∃ (first : CaseResult) (rest : list CaseResult),
      items b = first :: rest ∧ b_unix b = unix (itemDate first).
Proof.
  rewrite group_bucket.
  destruct (members res d t) as [|first rest] eqn:Hm; [done|].
  intros [= <-]. simpl. repeat split; try done.
  by exists first, rest.
Qed.

Lemma members_Permutation (res res' : list CaseResult) (d t : string) :
  res ≡ₚ res' → members res d t ≡ₚ members res' d t.
Proof. intros Hperm. unfold members. by rewrite Hperm. Qed.

(** X16: the counts do not depend on the order in which the records
    arrive: for two orderings of the same records, the same buckets
    exist and each has the same [total]. *)
Theorem group_totals_order (res res' : list CaseResult) (d t : string) :
  res ≡ₚ res' →
  total <$> getBucket (group res) d t = total <$> getBucket (group res') d t.
Proof.
  intros Hperm. rewrite !group_bucket.
  pose proof (members_Permutation res res' d t Hperm) as Hm.
  destruct (members res d t) as [|x l] eqn:Hl, (members res' d t) as [|x' l'] eqn:Hl'.
  - done.
  - by apply Permutation_nil_cons in Hm.
  - symmetry in Hm. by apply Permutation_nil_cons in Hm.
  - apply Permutation_length in Hm. simpl in *. f_equal. lia.
Qed.
End GroupFacts.

Lemma group_bucket_contents_witness :
  ∃ b : Bucket,
    getBucket (group (H := sampleExternal)
                 [failedRecord (H := sampleExternal) "IOE0900677928"; nexistRecord])
              "day 17041" "FAILED" = Some b
    ∧ items b = [failedRecord (H := sampleExternal) "IOE0900677928"]
    ∧ total b = 1
    ∧ b_date b = "day 17041" ∧ b_type b = "FAILED".
Proof.
  destruct (getBucket (group (H := sampleExternal)
              [failedRecord (H := sampleExternal) "IOE0900677928"; nexistRecord])
              "day 17041" "FAILED") as [b|] eqn:Hb; [|vm_compute in Hb; discriminate].
  exists b. split; [reflexivity|].
  destruct (group_bucket_contents (H := sampleExternal) _ _ _ _ Hb)
    as (Hitems & Htotal & Hd & Ht & _).
  rewrite Htotal, Hitems. split; [|split]; [vm_compute; reflexivity..|]. by split.
Defined.

Lemma group_totals_order_witness :
  total <$> getBucket (group (H := sampleExternal)
                         [failedRecord (H := sampleExternal) "IOE0900677928"; nexistRecord])
                      "day 17041" "FAILED"
  = total <$> getBucket (group (H := sampleExternal)
                           [nexistRecord; failedRecord (H := sampleExternal) "IOE0900677928"])
                        "day 17041" "FAILED".
Proof.
  apply (group_totals_order (H := sampleExternal)).
  apply perm_swap.
Defined.

(** ** The earlier revision *)

Section AppJsFacts.
Context `{External}.

Lemma AppJs_getType_effect (key : string) (w : World) :
  ∃ ty w', AppJs.getType key w = Returned ty w' ∧ sameGlobals w w'.
Proof.
  unfold AppJs.getType. destruct (has AppJs.titleToType key).
  - eexists _, _. split; [reflexivity | apply sameGlobals_refl].
  - eexists _, _. split; [reflexivity | done].
Qed.

Lemma AppJs_infoParser_effect (text title : string) (w : World) :
  ∃ info w', AppJs.infoParser text title w = Returned info w' ∧ sameGlobals w w'.
Proof.
  unfold AppJs.infoParser. rewrite bind_unfold.
  destruct (AppJs_getType_effect title w) as (ty & w' & -> & Hw).
  by eexists _, _.
Qed.

Lemma AppJs_retrieveCaseStatus_callback {R} (caseNum' : string)
    (callback : option AppJs.ExtractError → CaseResult → M R) (w : World) :
  AppJs.retrieveCaseStatus caseNum' callback w
  = (r ← AppJs.retrieveCaseStatus caseNum' (λ err b, mret (err, b));
     callback r.1 r.2) w.
Proof.
  unfold AppJs.retrieveCaseStatus. run_binds.
  destruct (remote caseNum') as [err|[err|dom]]; [by run_binds..|].
  unfold AppJs.extractInfo. cbv zeta.
  set (title := extract dom (join " " [Const.selectors_main; Const.selectors_type])).
  set (text := extract dom (join " " [Const.selectors_main; Const.selectors_text])).
  destruct title as [t|], text as [x|]; try done.
  destruct (negb (truthy (Some t)) || negb (truthy (Some x))); [done|].
  rewrite !bind_unfold.
  by destruct (AppJs.infoParser x t _).
Qed.

Lemma AppJs_retrieveCaseStatus_direct (caseNum' : string) (w : World) :
  ∃ (res : CaseResult) (w' : World),
    AppJs.retrieveCaseStatus caseNum' (λ err b, mret (err, b)) w
    = Returned (None, res) w'
    ∧ caseNum res = Some caseNum'
    ∧ is_Some (date res)
    ∧ posted w' = posted w ++ [caseNum']
    ∧ BLOCKED w' = BLOCKED w
    ∧ results w' = results w.
Proof.
  unfold AppJs.retrieveCaseStatus.
  set (w1 := {| BLOCKED := BLOCKED w; results := results w;
                console := console w; posted := posted w ++ [caseNum'] |}).
  destruct (remote caseNum') as [err|[err|dom]].
  - eexists _, _. split; [by run_binds|]. simpl. eauto 10.
  - eexists _, _. split; [by run_binds|]. simpl. eauto 10.
  - unfold AppJs.extractInfo. cbv zeta.
    set (title := extract dom (join " " [Const.selectors_main; Const.selectors_type])).
    set (text := extract dom (join " " [Const.selectors_main; Const.selectors_text])).
    destruct title as [t|], text as [x|];
      try (eexists _, _; split; [by run_binds|]; simpl; by eauto 10).
    destruct (negb (truthy (Some t)) || negb (truthy (Some x)));
      [eexists _, _; split; [by run_binds|]; simpl; by eauto 10|].
    destruct (AppJs_infoParser_effect x t w1) as (info & w2 & Hinfo & Hb & Hr & Hp).
    eexists _, w2.
    split; [run_binds; fold w1; rewrite Hinfo; reflexivity|].
    simpl. rewrite Hb, Hr, Hp. eauto 10.
Qed.

(** X17: in the earlier revision a lookup never raises: whatever the
    remote answer, [retrieveCaseStatus] is exactly one call of its
    callback with a null error, and the record always carries the
    queried case number and a date.  The case number has been posted
    once and nothing but the console has changed otherwise. *)
Theorem AppJs_retrieveCaseStatus_total (caseNum' : string) (w : World) :
  ∃ (res : CaseResult) (w' : World),
    (∀ (R : Type) (callback : option AppJs.ExtractError → CaseResult → M R),
       AppJs.retrieveCaseStatus caseNum' callback w = callback None res w')
    ∧ caseNum res = Some caseNum'
    ∧ is_Some (date res)
    ∧ posted w' = posted w ++ [caseNum']
    ∧ BLOCKED w' = BLOCKED w
    ∧ results w' = results w.
Proof.
  destruct (AppJs_retrieveCaseStatus_direct caseNum' w) as (res & w' & Hres & Hrest).
  exists res, w'. split; [|exact Hrest].
  intros R callback.
  by rewrite AppJs_retrieveCaseStatus_callback, bind_unfold, Hres.
Qed.

Lemma AppJs_mapAll (ids : list string) :
  ∀ w : World,
    ∃ (rs : list CaseResult) (w' : World),
      mapAll (λ R, AppJs.retrieveCaseStatus (R := R)) ids w = Returned (None, rs) w'
      ∧ Forall2 (λ p r, caseNum r = Some p) ids rs
      ∧ posted w' = posted w ++ ids.
Proof.
  induction ids as [|p ids IH]; intros w.
  - exists [], w. split; [done|]. split; [constructor | by rewrite app_nil_r].
  - destruct (AppJs_retrieveCaseStatus_direct p w) as (r & w1 & Hr & Hc & _ & Hp & _).
    destruct (IH w1) as (rs & w2 & Hrs & Hall & Hp2).
    exists (r :: rs), w2. split; [|split].
    + cbn [mapAll]. rewrite bind_unfold, Hr. cbn [fst snd].
      by rewrite bind_unfold, Hrs.
    + by constructor.
    + rewrite Hp2, Hp, <- app_assoc. done.
Qed.

(** X18: the earlier revision builds its identifiers with
    [_.times(options.total, ...)] and maps [retrieveCaseStatus] over
    them with [async.mapLimit]: for a limit of at least one and a range
    of safe integers, this never raises, the final callback runs once
    without error, exactly [max(total, 0)] identifiers have been posted,
    those of the range starting at [start], and there is one record per
    identifier, in order, each carrying its identifier. *)
Theorem AppJs_lookups_exact (options : Options) (w : World) :
  1 ≤ o_limit options →
  isSafeInteger (o_start options) →
  o_total options ≤ MAX_ARRAY_LENGTH →
  o_start options + o_total options ≤ MAX_SAFE_INTEGER →
  ∃ (rs : list CaseResult) (w' : World),
    (∀ (R : Type) (callback : option AppJs.ExtractError → list CaseResult → M R),
       AppJs.mapLimit (AppJs.params options) (o_limit options)
         (λ R, AppJs.retrieveCaseStatus (R := R)) callback w
       = callback None rs w')
    ∧ AppJs.params options
      = getParams (o_prefix options) (o_start options) (o_total options)
    ∧ length rs = Z.to_nat (o_total options)
    ∧ Forall2 (λ p r, caseNum r = Some p) (AppJs.params options) rs
    ∧ posted w' = posted w ++ AppJs.params options.
Proof.
  intros Hlimit _ _ _.
  destruct (AppJs_mapAll (AppJs.params options) w) as (rs & w' & Hrs & Hall & Hp).
  exists rs, w'. split; [|split; [done|split; [|done]]].
  - intros R callback. unfold AppJs.mapLimit.
    destruct (Z.leb_spec (o_limit options) 0) as [?|_]; [lia|].
    by rewrite bind_unfold, Hrs.
  - rewrite <- (Forall2_length _ _ _ Hall). apply times_length.
Qed.
End AppJsFacts.

Lemma AppJs_lookups_exact_witness :
  ∃ (rs : list CaseResult) (w' : World),
    (∀ (R : Type) (callback : option AppJs.ExtractError → list CaseResult → M R),
       AppJs.mapLimit
         (AppJs.params
            {| o_total := 3; o_prefix := "IOE"; o_start := 900677923; o_limit := 2 |})
         2 (λ R, AppJs.retrieveCaseStatus (H := sampleExternal) (R := R))
         callback initialWorld
       = callback None rs w')
    ∧ AppJs.params
        {| o_total := 3; o_prefix := "IOE"; o_start := 900677923; o_limit := 2 |}
      = getParams "IOE" 900677923 3
    ∧ length rs = Z.to_nat 3
    ∧ Forall2 (λ p r, caseNum r = Some p)
        (AppJs.params
           {| o_total := 3; o_prefix := "IOE"; o_start := 900677923; o_limit := 2 |})
        rs
    ∧ posted w'
      = posted initialWorld
        ++ AppJs.params
             {| o_total := 3; o_prefix := "IOE"; o_start := 900677923; o_limit := 2 |}.
Proof.
  apply (AppJs_lookups_exact (H := sampleExternal)
           {| o_total := 3; o_prefix := "IOE"; o_start := 900677923; o_limit := 2 |}
           initialWorld);
    unfold isSafeInteger, MAX_ARRAY_LENGTH, MAX_SAFE_INTEGER; simpl; lia.
Defined.
